(** * Day 5 of AdventOfCode2023: the almanac range remapper

    A shallow embedding of [src/day5/main.py]: the classes [Category] and
    [Gardener], with Python integers as [Z], tuples as pairs, Python lists as
    Rocq lists in the same order ([pop] removes the last element, [append]
    adds at the end) and list objects that are shared between a caller and a
    callee as cells of an explicit store. *)

From stdpp Require Import gmap list strings.
From Stdlib Require Import ZArith Lia.

(** ** Values *)

(** A range is the tuple [(start, end)], a rule the tuple
    [(destination_start, source_start, length)]. *)
Definition range : Type := Z * Z.
Definition rule : Type := Z * Z * Z.

(** The exceptions the modelled code can raise. *)
Inductive exn : Type := IndexError | ValueError.

(** [list.pop()]: the last element and the list without it; [None] on the
    empty list. *)
Fixpoint pop {A : Type} (l : list A) : option (list A * A) :=
  match l with
  | [] => None
  | x :: l' =>
      match pop l' with
      | None => Some ([], x)
      | Some (r, y) => Some (x :: r, y)
      end
  end.

(** Tuple comparison [x < y] of two pairs of integers (lexicographic). *)
Definition tuple_lt (x y : range) : bool :=
  (x.1 <? y.1)%Z || ((x.1 =? y.1)%Z && (x.2 <? y.2)%Z).

(** The builtin [min] on a list of tuples: the first least element, and
    [ValueError] on an empty list. *)
Definition py_min (l : list range) : exn + range :=
  match l with
  | [] => inl ValueError
  | x :: r => inr (fold_left (fun m y => if tuple_lt y m then y else m) r x)
  end.

(** The builtin [min] on a list of integers. *)
Definition py_min_int (l : list Z) : exn + Z :=
  match l with
  | [] => inl ValueError
  | x :: r => inr (fold_left (fun m y => if (y <? m)%Z then y else m) r x)
  end.

(** [l[i]] for a non-negative index. *)
Definition py_index {A : Type} (l : list A) (i : nat) : exn + A :=
  match l !! i with
  | Some x => inr x
  | None => inl IndexError
  end.

(** [range(0, n, 2)]. *)
Definition range_step2 (n : nat) : list nat :=
  map (fun k => 2 * k)%nat (seq 0 ((n + 1) / 2)).

(** A list comprehension whose element expression may raise: the first
    exception aborts the whole comprehension. *)
Fixpoint comprehension {A B : Type} (f : A -> exn + B) (l : list A) : exn + list B :=
  match l with
  | [] => inr []
  | x :: l' =>
      match f x with
      | inl e => inl e
      | inr y =>
          match comprehension f l' with
          | inl e => inl e
          | inr ys => inr (y :: ys)
          end
      end
  end.

(** ** class Category *)

Module Category.

Record t : Type := mk { category_id : string; category_map : list rule }.

(** [convert_initial_seed]: [next] of the generator over the rules whose
    source interval contains [source_number], with [source_number] as the
    default. *)
Fixpoint next_converted (category_map : list rule) (source_number : Z) : Z :=
  match category_map with
  | [] => source_number
  | (destination_start, source_start, length) :: rest =>
      if ((source_start <=? source_number) && (source_number <? source_start + length))%Z
      then (destination_start + (source_number - source_start))%Z
      else next_converted rest source_number
  end.

Definition convert_initial_seed (self : t) (source_number : Z) : Z :=
  next_converted (category_map self) source_number.

(** The two local list objects of [convert_seed_range]: the argument
    [seed_ranges_pair], used as the work-list, and [converted_ranges]. *)
Record loop_state : Type :=
  mk_state { seed_ranges_pair : list range; converted_ranges : list range }.

(** The [for ... else] over the rules for one popped range: [Some] of the
    converted range and the ranges appended to the work-list when a rule
    overlaps (the [break]), [None] when the loop runs to its [else]. *)
Fixpoint for_rules (category_map : list rule) (start end_ : Z)
  : option (range * list range) :=
  match category_map with
  | [] => None
  | (destination_start, source_start, length) :: rest =>
      let overlap_start := Z.max start source_start in
      let overlap_end := Z.min end_ (source_start + length) in
      if (overlap_start <? overlap_end)%Z then
        let converted_start := (overlap_start - source_start + destination_start)%Z in
        let converted_end := (overlap_end - source_start + destination_start)%Z in
        Some ((converted_start, converted_end),
              (if (overlap_start >? start)%Z then [(start, overlap_start)] else [])
              ++ (if (end_ >? overlap_end)%Z then [(overlap_end, end_)] else []))
      else for_rules rest start end_
  end.

(** One iteration of the [while] body. *)
Definition loop_body (category_map : list rule) (st : loop_state) : loop_state :=
  match pop (seed_ranges_pair st) with
  | None => st
  | Some (rest, (start, end_)) =>
      match for_rules category_map start end_ with
      | Some (converted, pushed) =>
          mk_state (rest ++ pushed) (converted_ranges st ++ [converted])
      | None =>
          mk_state rest (converted_ranges st ++ [(start, end_)])
      end
  end.

(** [while len(seed_ranges_pair) > 0: ...], for at most [fuel] iterations. *)
Fixpoint while_loop (fuel : nat) (category_map : list rule) (st : loop_state)
  : loop_state :=
  match fuel with
  | O => st
  | S fuel' =>
      if (0 <? length (seed_ranges_pair st))%nat
      then while_loop fuel' category_map (loop_body category_map st)
      else st
  end.

(** The number of iterations allowed to the loop: one per input range and
    two more per input range and rule. [convert_seed_range_iterations] below
    shows that the loop exits before this runs out. *)
Definition budget (category_map : list rule) (l : list range) : nat :=
  (length l * (2 * length category_map + 1))%nat.

(** [convert_seed_range], with the state of the argument list passed
    explicitly: from the contents of the list the caller passes in, the
    final contents of that same list object ([seed_ranges_pair]) and the
    returned list ([converted_ranges]). *)
Definition convert_seed_range (self : t) (l : list range) : loop_state :=
  while_loop (budget (category_map self) l) (category_map self) (mk_state l []).

(** The loop as a relation that counts its iterations:
    [iterations cm n st st'] when the [while] loop started in [st] exits in
    [st'] after exactly [n] executions of its body. *)
Inductive iterations (category_map : list rule)
  : nat -> loop_state -> loop_state -> Prop :=
| iterations_exit (st : loop_state) :
    seed_ranges_pair st = [] -> iterations category_map 0 st st
| iterations_body (n : nat) (st st' : loop_state) :
    seed_ranges_pair st <> [] ->
    iterations category_map n (loop_body category_map st) st' ->
    iterations category_map (S n) st st'.

End Category.

(** ** The store of list objects *)

(** Python variables and attributes hold references. The lists of ranges
    live in a store from locations to list contents. *)
Abbreviation loc := nat (only parsing).
Abbreviation store := (gmap nat (list range)) (only parsing).

(** Allocation of a new list object. *)
Definition alloc (l : list range) (h : store) : loc * store :=
  let r := fresh (dom h) in (r, <[r := l]> h).

(** A call [category.convert_seed_range(x)] where [x] refers to the list
    object at [arg]: the method pops from and appends to that object, so its
    final contents are written back, and returns a reference to the new list
    [converted_ranges] it built. (A location outside the store reads as the
    empty list; the statements below are about allocated arguments.) *)
Definition call_convert_seed_range (c : Category.t) (arg : loc) (h : store)
  : loc * store :=
  let st := Category.convert_seed_range c (h !!! arg) in
  alloc (Category.converted_ranges st) (<[arg := Category.seed_ranges_pair st]> h).

(** A store with one list object, at location 0. *)
Definition one_list (l : list range) : gmap nat (list range) := {[0%nat := l]}.

(** ** class Gardener *)

Module Gardener.

(** [categories] is a dict keyed by the block index, filled in increasing
    index order; only [values()] is used, which iterates in that order, so
    it is kept as the list of its values. [seed_ranges] is a reference. *)
Record t : Type :=
  mk { initial_seeds : list Z; seed_ranges : loc; categories : list Category.t }.

(** The list comprehension that builds [seed_ranges] in [parse_almanac]. *)
Definition build_seed_ranges (initial_seeds : list Z) : exn + list range :=
  comprehension
    (fun i =>
       match py_index initial_seeds i with
       | inl e => inl e
       | inr a =>
           match py_index initial_seeds (i + 1) with
           | inl e => inl e
           | inr b => inr (a, (a + b)%Z)
           end
       end)
    (range_step2 (length initial_seeds)).

(** [parse_almanac], from the integers of the seeds line and the parsed
    blocks on. *)
Definition parse_almanac (seeds : list Z) (blocks : list Category.t) (h : store)
  : (exn + t) * store :=
  match build_seed_ranges seeds with
  | inl e => (inl e, h)
  | inr rs => let '(r, h') := alloc rs h in (inr (mk seeds r blocks), h')
  end.

Definition convert_to_location_initial_seeds (self : t) (seed_number : Z) : Z :=
  fold_left (fun current_number category =>
               Category.convert_initial_seed category current_number)
            (categories self) seed_number.

(** [min] of the list of converted locations, one per initial seed. *)
Definition find_lowest_location_from_initial_seeds (self : t) : exn + Z :=
  py_min_int (map (convert_to_location_initial_seeds self) (initial_seeds self)).

(** [seed_pair] is first an alias of the argument, then of each
    category's result in turn. *)
Definition convert_to_location_seed_ranges (self : t) (seed_ranges_pair : loc)
  (h : store) : loc * store :=
  fold_left (fun '(seed_pair, h') category =>
               call_convert_seed_range category seed_pair h')
            (categories self) (seed_ranges_pair, h).

Definition find_lowest_location_from_seed_ranges (self : t) (h : store)
  : (exn + Z) * store :=
  let '(r, h') := convert_to_location_seed_ranges self (seed_ranges self) h in
  match py_min (h' !!! r) with
  | inl e => (inl e, h')
  | inr m => (inr m.1, h')
  end.

End Gardener.

(** The value-level pipeline: the contents of the list each category
    returns, fed to the next one. *)
Definition pipeline (cats : list Category.t) (l : list range) : list range :=
  fold_left (fun l' c => Category.converted_ranges (Category.convert_seed_range c l'))
            cats l.

(** ** Points of ranges *)

(** The integers of the half-open interval [[start, end)], in order. *)
Definition points (r : range) : list Z :=
  map (fun i => (r.1 + Z.of_nat i)%Z) (seq 0 (Z.to_nat (r.2 - r.1))).

Definition all_points (l : list range) : list Z := flat_map points l.

Definition in_range (x : Z) (r : range) : Prop := (r.1 <= x < r.2)%Z.

Definition in_source (x : Z) (ru : rule) : Prop :=
  (ru.1.2 <= x < ru.1.2 + ru.2)%Z.

(** The overlap test of the loop, as a proposition. *)
Definition overlaps (start end_ : Z) (ru : rule) : Prop :=
  (Z.max start ru.1.2 < Z.min end_ (ru.1.2 + ru.2))%Z.

(** The piecewise map in the words of the specification: [y] is [x]
    translated by the offset of a rule whose source interval contains [x],
    or [x] itself when no rule covers it. *)
Definition translated_by (cm : list rule) (x y : Z) : Prop :=
  (exists ru, ru ∈ cm /\ in_source x ru /\ y = (x + (ru.1.1 - ru.1.2))%Z)
  \/ ((forall ru, ru ∈ cm -> ~ in_source x ru) /\ y = x).

(** What the body of the [if] computes from the matching rule. *)
Definition taken (ru : rule) (start end_ : Z) : range * list range :=
  let overlap_start := Z.max start ru.1.2 in
  let overlap_end := Z.min end_ (ru.1.2 + ru.2) in
  ((overlap_start - ru.1.2 + ru.1.1, overlap_end - ru.1.2 + ru.1.1)%Z,
   (if (overlap_start >? start)%Z then [(start, overlap_start)] else [])
   ++ (if (end_ >? overlap_end)%Z then [(overlap_end, end_)] else [])).

(** ** The measure of the work-list *)

(** [inside r x]: 1 when the boundary [x] lies strictly inside the range. *)
Definition inside (r : range) (x : Z) : nat :=
  if ((r.1 <? x) && (x <? r.2))%Z then 1 else 0.

(** The number of rule boundaries (source start and source end, counted per
    rule) that lie strictly inside a range. *)
Fixpoint crossings (cm : list rule) (r : range) : nat :=
  match cm with
  | [] => 0
  | ru :: cm' => inside r ru.1.2 + inside r (ru.1.2 + ru.2)%Z + crossings cm' r
  end.

(** The measure of a work-list: each pending range costs its own iteration
    and one more for every boundary that can still split it. *)
Definition potential (cm : list rule) (work : list range) : nat :=
  sum_list_with (fun r => S (crossings cm r)) work.

(** The element expression of the comprehension, when both indices are in
    range. *)
Definition seed_pair_at (seeds : list Z) (i : nat) : range :=
  (nth i seeds 0%Z, (nth i seeds 0 + nth (i + 1) seeds 0)%Z).

(** The number of integers a list of ranges holds, counted per range:
    [sum(max(0, end - start))]. *)
Definition total_length (l : list range) : Z :=
  fold_right (fun r acc => (Z.max 0 (r.2 - r.1) + acc)%Z) 0%Z l.

(** A range with at least one integer in it. *)
Definition nonempty (r : range) : Prop := (r.1 < r.2)%Z.

(** [sub r' r]: the range [r'] lies inside the range [r]. *)
Definition sub (r' r : range) : Prop := (r.1 <= r'.1 /\ r'.2 <= r.2)%Z.

(** The rules that can ever match: those of positive length. *)
Definition live_rules (cm : list rule) : list rule :=
  filter (fun ru => (0 <? ru.2)%Z = true) cm.

(** Where a returned range comes from: it is a piece [[a, b)] of an input
    range, either returned as it is, no rule overlapping it, or non-empty,
    inside the source interval of a rule and translated by that rule. *)
Definition piece_of (cm : list rule) (l : list range) (o : range) : Prop :=
  exists r a b,
    r ∈ l /\ sub (a, b) r /\
    ((o = (a, b) /\ Forall (fun ru => ~ overlaps a b ru) cm)
     \/ ((a < b)%Z /\
         exists ru, ru ∈ cm /\ (ru.1.2 <= a)%Z /\ (b <= ru.1.2 + ru.2)%Z /\
                    o = ((a - ru.1.2 + ru.1.1)%Z, (b - ru.1.2 + ru.1.1)%Z))).

(** ** First runs *)

(** A range inside a rule's source interval: one translated range, nothing
    re-queued. *)
Example full_containment_example :
  Category.convert_seed_range (Category.mk "c" [(100, 5, 5)%Z]) [(5, 10)%Z]
  = Category.mk_state [] [(100, 105)%Z].
Proof. reflexivity. Qed.

(** A rule inside the range: the translated overlap first, then the suffix
    (pushed last, popped first) and the prefix. *)
Example split_example :
  Category.converted_ranges
    (Category.convert_seed_range (Category.mk "c" [(50, 5, 3)%Z]) [(0, 10)%Z])
  = [(50, 53); (8, 10); (0, 5)]%Z.
Proof. reflexivity. Qed.

(** Two runs of the first almanac lines of the puzzle text. *)
Example seed_to_soil_example :
  let c := Category.mk "seed_to_soil_map" [(50, 98, 2); (52, 50, 48)]%Z in
  map (Category.convert_initial_seed c) [79; 14; 55; 13; 98]%Z
  = [81; 14; 57; 13; 50]%Z
  /\ Category.converted_ranges (Category.convert_seed_range c [(79, 93); (55, 68)]%Z)
     = [(57, 70); (81, 95)]%Z.
Proof. split; reflexivity. Qed.

(** ** Lists and points *)

Lemma pop_app {A : Type} (l : list A) (x : A) : pop (l ++ [x]) = Some (l, x).
Proof.
  induction l as [|y l IH]; simpl; [reflexivity|].
  rewrite IH. reflexivity.
Qed.

Lemma pop_None {A : Type} (l : list A) : pop l = None -> l = [].
Proof.
  destruct l as [|x l]; [reflexivity|]. simpl.
  destruct (pop l) as [[r y]|]; discriminate.
Qed.

Lemma pop_Some {A : Type} (l r : list A) (y : A) :
  pop l = Some (r, y) -> l = r ++ [y].
Proof.
  revert r y. induction l as [|x l IH]; intros r y; simpl; [discriminate|].
  destruct (pop l) as [[r' y']|] eqn:E.
  - intros [= <- <-]. simpl. f_equal. apply IH. reflexivity.
  - intros [= <- <-]. apply pop_None in E. subst l. reflexivity.
Qed.

Lemma points_empty (a b : Z) : (b <= a)%Z -> points (a, b) = [].
Proof.
  intros H. unfold points. simpl.
  replace (Z.to_nat (b - a)) with 0%nat by lia. reflexivity.
Qed.

Lemma elem_of_points (x : Z) (r : range) : x ∈ points r <-> in_range x r.
Proof.
  unfold points, in_range. rewrite list_elem_of_In, in_map_iff. split.
  - intros (i & <- & Hi). apply in_seq in Hi. lia.
  - intros H. exists (Z.to_nat (x - r.1)). split; [lia|].
    apply in_seq. lia.
Qed.

Lemma points_split (a b c : Z) :
  (a <= b <= c)%Z -> points (a, c) = points (a, b) ++ points (b, c).
Proof.
  intros H. unfold points. simpl.
  replace (Z.to_nat (c - a)) with (Z.to_nat (b - a) + Z.to_nat (c - b))%nat by lia.
  rewrite seq_app, map_app. f_equal. simpl.
  rewrite <- (Nat.add_0_r (Z.to_nat (b - a))), <- fmap_add_seq.
  change (map ?f (?g <$> ?l)) with (map f (map g l)).
  rewrite map_map. apply map_ext. intros i. lia.
Qed.

Lemma points_shift (f : Z -> Z) (a b k : Z) :
  (forall x, (a <= x < b)%Z -> f x = (x + k)%Z) ->
  map f (points (a, b)) = points ((a + k)%Z, (b + k)%Z).
Proof.
  intros Hf. unfold points. simpl.
  replace (b + k - (a + k))%Z with (b - a)%Z by lia.
  rewrite map_map. apply map_ext_in. intros i Hi. apply in_seq in Hi.
  rewrite Hf; lia.
Qed.

Lemma points_fixed (f : Z -> Z) (a b : Z) :
  (forall x, (a <= x < b)%Z -> f x = x) -> map f (points (a, b)) = points (a, b).
Proof.
  intros Hf. rewrite (points_shift f a b 0).
  - f_equal. f_equal; lia.
  - intros x Hx. rewrite Hf; lia.
Qed.

Lemma all_points_app (l1 l2 : list range) :
  all_points (l1 ++ l2) = all_points l1 ++ all_points l2.
Proof. unfold all_points. apply flat_map_app. Qed.

Lemma all_points_singleton (r : range) : all_points [r] = points r.
Proof. unfold all_points. simpl. apply app_nil_r. Qed.

Lemma elem_of_all_points (x : Z) (l : list range) :
  x ∈ all_points l <-> exists r, r ∈ l /\ in_range x r.
Proof.
  unfold all_points. rewrite list_elem_of_In, in_flat_map. split.
  - intros (r & Hr & Hx). exists r. split; [by apply list_elem_of_In|].
    by apply elem_of_points, list_elem_of_In.
  - intros (r & Hr & Hx). exists r. split; [by apply list_elem_of_In|].
    by apply list_elem_of_In, elem_of_points.
Qed.

(** ** The scan over the rules *)

Lemma in_source_overlaps (x start end_ : Z) (ru : rule) :
  in_source x ru -> (start <= x < end_)%Z -> overlaps start end_ ru.
Proof. unfold in_source, overlaps. lia. Qed.

Lemma for_rules_first (pre post : list rule) (ru : rule) (start end_ : Z) :
  Forall (fun r => ~ overlaps start end_ r) pre ->
  overlaps start end_ ru ->
  Category.for_rules (pre ++ ru :: post) start end_ = Some (taken ru start end_).
Proof.
  intros Hpre Hru. induction Hpre as [|[[d s] l] pre Hn _ IH]; simpl.
  - destruct ru as [[d s] l]. unfold overlaps in Hru. simpl in Hru.
    destruct (Z.ltb_spec (Z.max start s) (Z.min end_ (s + l))); [reflexivity|lia].
  - unfold overlaps in Hn. simpl in Hn.
    destruct (Z.ltb_spec (Z.max start s) (Z.min end_ (s + l))); [lia|exact IH].
Qed.

Lemma for_rules_None (cm : list rule) (start end_ : Z) :
  Category.for_rules cm start end_ = None <->
  Forall (fun r => ~ overlaps start end_ r) cm.
Proof.
  induction cm as [|[[d s] l] cm IH]; simpl.
  - split; [constructor|reflexivity].
  - destruct (Z.ltb_spec (Z.max start s) (Z.min end_ (s + l))) as [Hlt|Hge].
    + split; [discriminate|]. intros H. inversion H as [|? ? Hn _]; subst.
      exfalso. apply Hn. exact Hlt.
    + rewrite IH. split.
      * intros H. constructor; [|exact H]. unfold overlaps. simpl. lia.
      * intros H. inversion H; assumption.
Qed.

Lemma for_rules_Some (cm : list rule) (start end_ : Z) (res : range * list range) :
  Category.for_rules cm start end_ = Some res ->
  exists pre ru post,
    cm = pre ++ ru :: post /\
    Forall (fun r => ~ overlaps start end_ r) pre /\
    overlaps start end_ ru /\
    res = taken ru start end_.
Proof.
  induction cm as [|[[d s] l] cm IH]; simpl; [discriminate|].
  destruct (Z.ltb_spec (Z.max start s) (Z.min end_ (s + l))) as [Hlt|Hge].
  - intros [= <-]. exists [], (d, s, l), cm. repeat split; [constructor|exact Hlt].
  - intros H. destruct (IH H) as (pre & ru & post & -> & Hpre & Hru & ->).
    exists ((d, s, l) :: pre), ru, post. repeat split; [|exact Hru].
    constructor; [|exact Hpre]. unfold overlaps. simpl. lia.
Qed.

Lemma next_converted_first (pre post : list rule) (ru : rule) (x : Z) :
  Forall (fun r => ~ in_source x r) pre ->
  in_source x ru ->
  Category.next_converted (pre ++ ru :: post) x = (ru.1.1 + (x - ru.1.2))%Z.
Proof.
  intros Hpre Hru. induction Hpre as [|[[d s] l] pre Hn _ IH]; simpl.
  - destruct ru as [[d s] l]. unfold in_source in Hru. simpl in *.
    destruct (Z.leb_spec s x), (Z.ltb_spec x (s + l)); simpl; lia.
  - unfold in_source in Hn. simpl in Hn.
    destruct (Z.leb_spec s x), (Z.ltb_spec x (s + l)); simpl; try exact IH. lia.
Qed.

Lemma next_converted_none (cm : list rule) (x : Z) :
  Forall (fun r => ~ in_source x r) cm -> Category.next_converted cm x = x.
Proof.
  intros H. induction H as [|[[d s] l] cm Hn _ IH]; simpl; [reflexivity|].
  unfold in_source in Hn. simpl in Hn.
  destruct (Z.leb_spec s x), (Z.ltb_spec x (s + l)); simpl; try exact IH. lia.
Qed.

Lemma no_overlap_no_source (cm : list rule) (start end_ x : Z) :
  Forall (fun r => ~ overlaps start end_ r) cm ->
  (start <= x < end_)%Z ->
  Forall (fun r => ~ in_source x r) cm.
Proof.
  intros H Hx. eapply Forall_impl; [exact H|]. simpl.
  intros r Hr Hs. apply Hr. eapply in_source_overlaps; eauto.
Qed.

(** The points of the converted range and of the re-queued ranges of a
    matching rule. *)
Lemma taken_points (cm pre post : list rule) (ru : rule) (start end_ : Z) :
  cm = pre ++ ru :: post ->
  Forall (fun r => ~ overlaps start end_ r) pre ->
  overlaps start end_ ru ->
  map (Category.next_converted cm) (points (start, end_)) ≡ₚ
  points (taken ru start end_).1
  ++ map (Category.next_converted cm) (all_points (taken ru start end_).2).
Proof.
  intros -> Hpre Hru. destruct ru as [[d s] l]. unfold overlaps in Hru.
  unfold taken. simpl in *.
  set (os := Z.max start s) in *. set (oe := Z.min end_ (s + l)) in *.
  assert (Hord : (start <= os /\ os < oe /\ oe <= end_)%Z) by lia.
  rewrite (points_split start os end_), (points_split os oe end_) by lia.
  rewrite !map_app.
  set (f := Category.next_converted _).
  assert (Hmid : map f (points (os, oe)) = points ((os - s + d)%Z, (oe - s + d)%Z)).
  { rewrite (points_shift _ os oe (d - s)).
    - f_equal. f_equal; lia.
    - intros x Hx. subst f. rewrite next_converted_first; simpl.
      + lia.
      + eapply no_overlap_no_source; [exact Hpre|lia].
      + unfold in_source. simpl. lia. }
  rewrite Hmid. unfold all_points.
  destruct (Z.gtb_spec os start), (Z.gtb_spec end_ oe);
    cbn [flat_map app]; rewrite ?app_nil_r, ?map_app;
    rewrite ?(points_empty start os), ?(points_empty oe end_) by lia;
    cbn [map app]; rewrite ?app_nil_r; solve_Permutation.
Qed.

(** ** Termination of the work-list loop *)

Lemma inside_cases (r : range) (x : Z) :
  (inside r x = 1%nat /\ (r.1 < x < r.2)%Z) \/
  (inside r x = 0%nat /\ ~ (r.1 < x < r.2)%Z).
Proof.
  unfold inside.
  destruct (Z.ltb_spec r.1 x), (Z.ltb_spec x r.2); simpl; [left|right..]; lia.
Qed.

Lemma crossings_app (cm1 cm2 : list rule) (r : range) :
  crossings (cm1 ++ cm2) r = (crossings cm1 r + crossings cm2 r)%nat.
Proof. induction cm1 as [|ru cm1 IH]; simpl; [reflexivity|]. rewrite IH. lia. Qed.

Lemma crossings_bound (cm : list rule) (r : range) :
  (crossings cm r <= 2 * length cm)%nat.
Proof.
  induction cm as [|ru cm IH]; simpl; [lia|].
  destruct (inside_cases r ru.1.2) as [[-> _]|[-> _]],
           (inside_cases r (ru.1.2 + ru.2)%Z) as [[-> _]|[-> _]]; lia.
Qed.

Lemma inside_disjoint (a b c d x : Z) :
  (b <= c)%Z -> (a <= b)%Z -> (c <= d)%Z ->
  (inside (a, b) x + inside (c, d) x <= inside (a, d) x)%nat.
Proof.
  intros ? ? ?.
  destruct (inside_cases (a, b) x) as [[-> ?]|[-> ?]],
           (inside_cases (c, d) x) as [[-> ?]|[-> ?]],
           (inside_cases (a, d) x) as [[-> ?]|[-> ?]]; simpl in *; lia.
Qed.

Lemma crossings_disjoint (cm : list rule) (a b c d : Z) :
  (b <= c)%Z -> (a <= b)%Z -> (c <= d)%Z ->
  (crossings cm (a, b) + crossings cm (c, d) <= crossings cm (a, d))%nat.
Proof.
  intros H1 H2 H3. induction cm as [|ru cm IH]; simpl; [lia|].
  pose proof (inside_disjoint a b c d ru.1.2 H1 H2 H3).
  pose proof (inside_disjoint a b c d (ru.1.2 + ru.2)%Z H1 H2 H3).
  lia.
Qed.

(** The ranges a matching rule re-queues cost strictly less than the range
    it was found on. *)
Lemma taken_potential (pre post : list rule) (ru : rule) (start end_ : Z) :
  overlaps start end_ ru ->
  (potential (pre ++ ru :: post) (taken ru start end_).2
   <= crossings (pre ++ ru :: post) (start, end_))%nat.
Proof.
  intros Hru. destruct ru as [[d s] l]. unfold overlaps in Hru.
  unfold taken, potential. simpl in *.
  set (os := Z.max start s) in *. set (oe := Z.min end_ (s + l)) in *.
  assert (Hord : (start <= os /\ os < oe /\ oe <= end_)%Z) by lia.
  pose proof (crossings_disjoint pre start os oe end_) as Hp.
  pose proof (crossings_disjoint post start os oe end_) as Hq.
  assert (H1 : inside (start, os) s = 0%nat).
  { destruct (inside_cases (start, os) s) as [[_ ?]|[-> _]]; simpl in *; lia. }
  assert (H2 : inside (start, os) (s + l)%Z = 0%nat).
  { destruct (inside_cases (start, os) (s + l)%Z) as [[_ ?]|[-> _]]; simpl in *; lia. }
  assert (H3 : inside (oe, end_) s = 0%nat).
  { destruct (inside_cases (oe, end_) s) as [[_ ?]|[-> _]]; simpl in *; lia. }
  assert (H4 : inside (oe, end_) (s + l)%Z = 0%nat).
  { destruct (inside_cases (oe, end_) (s + l)%Z) as [[_ ?]|[-> _]]; simpl in *; lia. }
  assert (H5 : (start < os)%Z -> inside (start, end_) s = 1%nat).
  { intros ?. destruct (inside_cases (start, end_) s) as [[-> _]|[_ ?]]; simpl in *; lia. }
  assert (H6 : (oe < end_)%Z -> inside (start, end_) (s + l)%Z = 1%nat).
  { intros ?. destruct (inside_cases (start, end_) (s + l)%Z) as [[-> _]|[_ ?]]; simpl in *; lia. }
  rewrite crossings_app. cbn [crossings fst snd].
  destruct (Z.gtb_spec os start), (Z.gtb_spec end_ oe);
    cbn [app sum_list_with]; rewrite ?crossings_app; cbn [crossings fst snd];
    rewrite ?H1, ?H2, ?H3, ?H4, ?H5, ?H6 by lia; lia.
Qed.

Lemma potential_app (cm : list rule) (w1 w2 : list range) :
  potential cm (w1 ++ w2) = (potential cm w1 + potential cm w2)%nat.
Proof. apply sum_list_with_app. Qed.

Lemma potential_bound (cm : list rule) (w : list range) :
  (potential cm w <= Category.budget cm w)%nat.
Proof.
  unfold potential, Category.budget.
  induction w as [|r w IH]; simpl; [lia|].
  pose proof (crossings_bound cm r). lia.
Qed.

(** ** The work-list loop *)

Lemma nonempty_snoc {A : Type} (l : list A) :
  l <> [] -> exists r y, l = r ++ [y].
Proof.
  intros H. destruct (pop l) as [[r y]|] eqn:E.
  - exists r, y. by apply pop_Some.
  - apply pop_None in E. contradiction.
Qed.

Section WorkList.

Context (cm : list rule).

Lemma loop_body_pop (rest out : list range) (start end_ : Z) :
  Category.loop_body cm (Category.mk_state (rest ++ [(start, end_)]) out) =
  match Category.for_rules cm start end_ with
  | Some (converted, pushed) => Category.mk_state (rest ++ pushed) (out ++ [converted])
  | None => Category.mk_state rest (out ++ [(start, end_)])
  end.
Proof. unfold Category.loop_body. simpl. rewrite pop_app. reflexivity. Qed.

(** Name the range the next iteration pops: from a state with a non-empty
    work-list to the state [rest ++ [(start, end_)]] with the body unfolded. *)
Ltac pop_next st Hne :=
  destruct st as [w out]; simpl in Hne |- *;
  destruct (nonempty_snoc w Hne) as (rest & [start end_] & ->);
  rewrite loop_body_pop.

(** Every iteration lowers the measure of the work-list. *)
Lemma loop_body_potential (st : Category.loop_state) :
  Category.seed_ranges_pair st <> [] ->
  (S (potential cm (Category.seed_ranges_pair (Category.loop_body cm st)))
   <= potential cm (Category.seed_ranges_pair st))%nat.
Proof.
  intros Hne. pop_next st Hne. rewrite potential_app.
  destruct (Category.for_rules cm start end_) as [[conv pushed]|] eqn:E; simpl.
  - apply for_rules_Some in E. destruct E as (pre & ru & post & -> & _ & Hru & [= -> ->]).
    rewrite potential_app. pose proof (taken_potential pre post ru start end_ Hru) as H.
    unfold taken in H. cbn [snd] in H.
    change (potential ?cm [?r]) with (S (crossings cm r) + 0)%nat. lia.
  - change (potential ?cm [?r]) with (S (crossings cm r) + 0)%nat. lia.
Qed.

Lemma loop_body_length (st : Category.loop_state) :
  Category.seed_ranges_pair st <> [] ->
  length (Category.converted_ranges (Category.loop_body cm st))
  = S (length (Category.converted_ranges st)).
Proof.
  intros Hne. pop_next st Hne.
  destruct (Category.for_rules cm start end_) as [[conv pushed]|]; simpl;
    rewrite length_app; simpl; lia.
Qed.

Lemma while_loop_step (fuel : nat) (st : Category.loop_state) :
  Category.seed_ranges_pair st <> [] ->
  Category.while_loop (S fuel) cm st
  = Category.while_loop fuel cm (Category.loop_body cm st).
Proof.
  intros Hne. simpl. destruct (Category.seed_ranges_pair st); [contradiction|].
  reflexivity.
Qed.

Lemma while_loop_empty (fuel : nat) (out : list range) :
  Category.while_loop fuel cm (Category.mk_state [] out) = Category.mk_state [] out.
Proof. destruct fuel; reflexivity. Qed.

(** With fuel for the measure of the work-list, the loop exits, and it has
    then run at most that many iterations. *)
Lemma while_loop_iterations (fuel : nat) (st : Category.loop_state) :
  (potential cm (Category.seed_ranges_pair st) <= fuel)%nat ->
  exists n,
    Category.iterations cm n st (Category.while_loop fuel cm st) /\
    (n <= potential cm (Category.seed_ranges_pair st))%nat.
Proof.
  revert st. induction fuel as [|fuel IH]; intros st Hfuel.
  - exists 0%nat. simpl. split; [|lia]. constructor.
    destruct (Category.seed_ranges_pair st); [reflexivity|].
    unfold potential in Hfuel. simpl in Hfuel. lia.
  - destruct (decide (Category.seed_ranges_pair st = [])) as [He|Hne].
    + exists 0%nat. simpl. rewrite He. simpl. split; [|lia]. by constructor.
    + pose proof (loop_body_potential st Hne) as Hdec.
      destruct (IH (Category.loop_body cm st)) as (n & Hn & Hle); [lia|].
      exists (S n). split; [|lia].
      rewrite while_loop_step by exact Hne. by constructor.
Qed.

Lemma iterations_exit_empty (n : nat) (st st' : Category.loop_state) :
  Category.iterations cm n st st' -> Category.seed_ranges_pair st' = [].
Proof. induction 1; assumption. Qed.

Lemma iterations_count (n : nat) (st st' : Category.loop_state) :
  Category.iterations cm n st st' ->
  length (Category.converted_ranges st') = (length (Category.converted_ranges st) + n)%nat.
Proof.
  induction 1 as [st _|n st st' Hne _ IH]; [lia|].
  rewrite IH, loop_body_length by assumption. lia.
Qed.

Lemma iterations_deterministic (n m : nat)
  (st st1 st2 : Category.loop_state) :
  Category.iterations cm n st st1 -> Category.iterations cm m st st2 ->
  n = m /\ st1 = st2.
Proof.
  intros H1. revert m st2. induction H1 as [st He|n st st' Hne _ IH]; intros m st2 H2.
  - inversion H2 as [? He2|? ? ? Hne2 Hit2]; subst; [split; reflexivity|contradiction].
  - inversion H2 as [? He2|? ? ? Hne2 Hit2]; subst; [contradiction|].
    destruct (IH _ _ Hit2) as [-> ->]. split; reflexivity.
Qed.

Lemma loop_body_points (st : Category.loop_state) :
  Category.seed_ranges_pair st <> [] ->
  all_points (Category.converted_ranges (Category.loop_body cm st))
  ++ map (Category.next_converted cm)
       (all_points (Category.seed_ranges_pair (Category.loop_body cm st)))
  ≡ₚ all_points (Category.converted_ranges st)
     ++ map (Category.next_converted cm) (all_points (Category.seed_ranges_pair st)).
Proof.
  intros Hne. pop_next st Hne.
  destruct (Category.for_rules cm start end_) as [[conv pushed]|] eqn:E; simpl.
  - apply for_rules_Some in E.
    destruct E as (pre & ru & post & Hcm & Hpre & Hru & [= -> ->]).
    rewrite !all_points_app, !map_app, !all_points_singleton.
    rewrite (taken_points cm pre post ru start end_ Hcm Hpre Hru).
    unfold taken. cbn [fst snd]. rewrite !all_points_app, !map_app.
    solve_Permutation.
  - apply for_rules_None in E.
    rewrite !all_points_app, !map_app, !all_points_singleton.
    rewrite (points_fixed (Category.next_converted cm) start end_).
    + solve_Permutation.
    + intros x Hx. apply next_converted_none.
      eapply no_overlap_no_source; eauto.
Qed.

Lemma iterations_points (n : nat) (st st' : Category.loop_state) :
  Category.iterations cm n st st' ->
  all_points (Category.converted_ranges st')
  ≡ₚ all_points (Category.converted_ranges st)
     ++ map (Category.next_converted cm) (all_points (Category.seed_ranges_pair st)).
Proof.
  induction 1 as [st He|n st st' Hne _ IH].
  - rewrite He. simpl. by rewrite app_nil_r.
  - rewrite IH. by apply loop_body_points.
Qed.

Lemma loop_body_keeps (st : Category.loop_state) (r : range) :
  Forall (fun ru => ~ overlaps r.1 r.2 ru) cm ->
  Category.seed_ranges_pair st <> [] ->
  r ∈ Category.converted_ranges st \/ r ∈ Category.seed_ranges_pair st ->
  r ∈ Category.converted_ranges (Category.loop_body cm st)
  \/ r ∈ Category.seed_ranges_pair (Category.loop_body cm st).
Proof.
  intros Hr Hne Hin. pop_next st Hne. simpl in Hin.
  assert (Hcases : r ∈ out \/ r ∈ rest \/ r = (start, end_)).
  { destruct Hin as [?|Hin]; [by left|]. right.
    apply elem_of_app in Hin as [?|Hin]; [by left|]. right.
    by apply list_elem_of_singleton in Hin. }
  destruct Hcases as [Ho|[Hw| ->]].
  - destruct (Category.for_rules cm start end_) as [[conv pushed]|]; simpl;
      left; apply elem_of_app; by left.
  - destruct (Category.for_rules cm start end_) as [[conv pushed]|]; simpl.
    + right. apply elem_of_app. by left.
    + by right.
  - apply for_rules_None in Hr. simpl in Hr. rewrite Hr. simpl.
    left. apply elem_of_app. right. by apply list_elem_of_singleton.
Qed.

Lemma iterations_keeps (n : nat) (st st' : Category.loop_state)
  (r : range) :
  Forall (fun ru => ~ overlaps r.1 r.2 ru) cm ->
  Category.iterations cm n st st' ->
  r ∈ Category.converted_ranges st \/ r ∈ Category.seed_ranges_pair st ->
  r ∈ Category.converted_ranges st'.
Proof.
  intros Hr. induction 1 as [st He|n st st' Hne _ IH]; intros Hin.
  - destruct Hin as [?|Hin]; [assumption|]. rewrite He in Hin.
    by apply elem_of_nil in Hin.
  - apply IH. by apply loop_body_keeps.
Qed.

End WorkList.

(** ** The loop of [convert_seed_range] *)

Lemma convert_seed_range_iterations (c : Category.t) (l : list range) :
  exists n,
    Category.iterations (Category.category_map c) n (Category.mk_state l [])
      (Category.convert_seed_range c l) /\
    (n <= Category.budget (Category.category_map c) l)%nat.
Proof.
  destruct (while_loop_iterations (Category.category_map c)
              (Category.budget (Category.category_map c) l)
              (Category.mk_state l [])) as (n & Hn & Hle).
  - apply potential_bound.
  - exists n. split; [exact Hn|]. simpl in Hle.
    pose proof (potential_bound (Category.category_map c) l). lia.
Qed.

(** The caller's list object is empty when [convert_seed_range] returns. *)
Lemma convert_seed_range_drained (c : Category.t) (l : list range) :
  Category.seed_ranges_pair (Category.convert_seed_range c l) = [].
Proof.
  destruct (convert_seed_range_iterations c l) as (n & Hn & _).
  eapply iterations_exit_empty. exact Hn.
Qed.

Lemma convert_seed_range_points (c : Category.t) (l : list range) :
  all_points (Category.converted_ranges (Category.convert_seed_range c l))
  ≡ₚ map (Category.convert_initial_seed c) (all_points l).
Proof.
  destruct (convert_seed_range_iterations c l) as (n & Hn & _).
  apply iterations_points in Hn. exact Hn.
Qed.

(** ** The scalar conversion *)

Lemma next_converted_translated (cm : list rule) (x : Z) :
  translated_by cm x (Category.next_converted cm x).
Proof.
  induction cm as [|[[d s] l] cm IH]; simpl.
  - right. split; [|reflexivity]. intros ru Hru. by apply elem_of_nil in Hru.
  - destruct (Z.leb_spec s x), (Z.ltb_spec x (s + l)); simpl.
    1: { left. exists (d, s, l). split; [left|]. unfold in_source. simpl. lia. }
    all: destruct IH as [(ru & Hin & Hsrc & ->)|[Hnone ->]];
      [left; exists ru; split; [by right|by split]
      |right; split; [|reflexivity]; intros ru Hru;
       apply elem_of_cons in Hru as [->|Hru]; [unfold in_source; simpl; lia|by apply Hnone]].
Qed.

(** On a range of length one the scan finds the rule the scalar conversion
    finds, and re-queues nothing. *)
Lemma for_rules_unit (cm : list rule) (n : Z) :
  match Category.for_rules cm n (n + 1) with
  | Some (conv, pushed) =>
      conv = (Category.next_converted cm n, (Category.next_converted cm n + 1)%Z)
      /\ pushed = []
  | None => Category.next_converted cm n = n
  end.
Proof.
  induction cm as [|[[d s] l] cm IH]; simpl; [reflexivity|].
  destruct (Z.ltb_spec (Z.max n s) (Z.min (n + 1) (s + l))) as [Hlt|Hge].
  - destruct (Z.leb_spec s n), (Z.ltb_spec n (s + l)); simpl; try lia.
    replace (Z.max n s) with n by lia. replace (Z.min (n + 1) (s + l)) with (n + 1)%Z by lia.
    destruct (Z.gtb_spec n n), (Z.gtb_spec (n + 1) (n + 1)); try lia.
    split; [|reflexivity]. f_equal; lia.
  - destruct (Z.leb_spec s n), (Z.ltb_spec n (s + l)); simpl; try lia; exact IH.
Qed.

Lemma convert_seed_range_unit (c : Category.t) (n : Z) :
  Category.convert_seed_range c [(n, (n + 1)%Z)]
  = Category.mk_state [] [(Category.convert_initial_seed c n,
                           (Category.convert_initial_seed c n + 1)%Z)].
Proof.
  unfold Category.convert_seed_range, Category.convert_initial_seed.
  set (cm := Category.category_map c).
  assert (Hb : Category.budget cm [(n, (n + 1)%Z)] = S (2 * length cm))
    by (unfold Category.budget; simpl; lia).
  rewrite Hb, while_loop_step by discriminate.
  change (Category.mk_state [(n, (n + 1)%Z)] [])
    with (Category.mk_state ([] ++ [(n, (n + 1)%Z)]) []).
  rewrite loop_body_pop. cbn [app].
  pose proof (for_rules_unit cm n) as H.
  destruct (Category.for_rules cm n (n + 1)) as [[conv pushed]|].
  - destruct H as [-> ->]. apply while_loop_empty.
  - rewrite H. apply while_loop_empty.
Qed.

(** ** Ranges that no rule touches *)

Lemma disjoint_no_overlap (start end_ : Z) (ru : rule) :
  (forall x, in_range x (start, end_) -> ~ in_source x ru) ->
  ~ overlaps start end_ ru.
Proof.
  intros H Ho. unfold overlaps in Ho.
  apply (H (Z.max start ru.1.2)); unfold in_range, in_source; simpl; lia.
Qed.

(** ** The builtin [min] *)

Lemma tuple_lt_fst (x y : range) :
  ((if tuple_lt y x then y else x).1 <= x.1)%Z
  /\ ((if tuple_lt y x then y else x).1 <= y.1)%Z.
Proof.
  unfold tuple_lt.
  destruct (Z.ltb_spec y.1 x.1), (Z.eqb_spec y.1 x.1), (Z.ltb_spec y.2 x.2);
    simpl; lia.
Qed.

Lemma fold_min_spec (r : list range) (x : range) :
  let m := fold_left (fun m y => if tuple_lt y m then y else m) r x in
  m ∈ x :: r /\ forall y, y ∈ x :: r -> (m.1 <= y.1)%Z.
Proof.
  revert x. induction r as [|y r IH]; intros x; simpl.
  - split; [left|]. intros z Hz. apply list_elem_of_singleton in Hz. by subst.
  - pose proof (IH (if tuple_lt y x then y else x)) as H. cbv zeta in H.
    destruct H as [Hin Hle].
    pose proof (tuple_lt_fst x y) as [Hx Hy].
    split.
    + apply elem_of_cons in Hin as [->|Hin].
      * destruct (tuple_lt y x); [right; left|left].
      * right. by right.
    + intros z Hz.
      assert (Hm := Hle _ (list_elem_of_here _ _)).
      apply elem_of_cons in Hz as [->|Hz]; [exact (Z.le_trans _ _ _ Hm Hx)|].
      apply elem_of_cons in Hz as [->|Hz]; [exact (Z.le_trans _ _ _ Hm Hy)|].
      apply Hle. by right.
Qed.

Lemma py_min_spec (l : list range) :
  l <> [] ->
  exists m, py_min l = inr m /\ m ∈ l /\ forall y, y ∈ l -> (m.1 <= y.1)%Z.
Proof.
  destruct l as [|x r]; [contradiction|]. intros _.
  eexists. split; [reflexivity|]. apply fold_min_spec.
Qed.

(** ** List comprehensions *)

Lemma comprehension_ok {A B : Type} (f : A -> exn + B) (g : A -> B) (l : list A) :
  (forall x, x ∈ l -> f x = inr (g x)) -> comprehension f l = inr (map g l).
Proof.
  induction l as [|x l IH]; intros H; simpl; [reflexivity|].
  rewrite (H x) by left. rewrite IH; [reflexivity|].
  intros y Hy. apply H. by right.
Qed.

Lemma comprehension_raise {A B : Type} (f : A -> exn + B) (g : A -> B)
  (l1 l2 : list A) (x : A) (e : exn) :
  (forall y, y ∈ l1 -> f y = inr (g y)) -> f x = inl e ->
  comprehension f (l1 ++ x :: l2) = inl e.
Proof.
  induction l1 as [|y l1 IH]; intros H Hx; simpl.
  - rewrite Hx. reflexivity.
  - rewrite (H y) by left. rewrite IH; [reflexivity| |exact Hx].
    intros z Hz. apply H. by right.
Qed.

Lemma py_index_Some {A : Type} (l : list A) (i : nat) (x : A) :
  l !! i = Some x -> py_index l i = inr x.
Proof. unfold py_index. by intros ->. Qed.

Lemma py_index_out {A : Type} (l : list A) (i : nat) :
  (length l <= i)%nat -> py_index l i = inl IndexError.
Proof. unfold py_index. intros H. by rewrite lookup_ge_None_2. Qed.

(** ** Calls on the store *)

Lemma call_convert_seed_range_spec (c : Category.t) (arg : nat)
  (h : gmap nat (list range)) (l : list range) :
  h !! arg = Some l ->
  exists r h',
    call_convert_seed_range c arg h = (r, h') /\
    (r ∉ dom h) /\ r <> arg /\
    h' !! r = Some (Category.converted_ranges (Category.convert_seed_range c l)) /\
    h' !! arg = Some [] /\
    dom h ⊆ dom h' /\
    forall p, p <> arg -> p <> r -> h' !! p = h !! p.
Proof.
  intros Harg. unfold call_convert_seed_range, alloc.
  rewrite (lookup_total_correct h arg l Harg).
  set (st := Category.convert_seed_range c l).
  set (h1 := <[arg := Category.seed_ranges_pair st]> h).
  pose proof (is_fresh (dom h1)) as Hfresh.
  assert (Hdom : dom h1 = {[arg]} ∪ dom h) by apply dom_insert_L.
  assert (Hsub : forall p, p ∈ dom h -> p ∈ dom h1).
  { intros p Hp. rewrite Hdom. apply elem_of_union. by right. }
  assert (Hin1 : arg ∈ dom h1).
  { apply elem_of_dom. unfold h1. rewrite lookup_insert_eq. eauto. }
  assert (Hne : fresh (dom h1) <> arg).
  { intros Heq. apply Hfresh. rewrite Heq. exact Hin1. }
  exists (fresh (dom h1)), (<[fresh (dom h1) := Category.converted_ranges st]> h1).
  split; [reflexivity|]. split.
  { intros Hin. apply Hfresh, Hsub, Hin. }
  split; [exact Hne|]. split; [apply lookup_insert_eq|]. split.
  - rewrite lookup_insert_ne by exact Hne. unfold h1. rewrite lookup_insert_eq.
    f_equal. apply convert_seed_range_drained.
  - split.
    + intros p Hp. rewrite dom_insert_L. apply elem_of_union. right.
      by apply Hsub.
    + intros p Hp1 Hp2. rewrite lookup_insert_ne by congruence.
      unfold h1. by rewrite lookup_insert_ne.
Qed.

Lemma fold_calls_spec (cats : list Category.t) (arg : nat)
  (h : gmap nat (list range)) (l : list range) :
  h !! arg = Some l ->
  exists r h',
    fold_left (fun '(seed_pair, h') category =>
                 call_convert_seed_range category seed_pair h') cats (arg, h)
    = (r, h') /\
    h' !! r = Some (pipeline cats l) /\
    dom h ⊆ dom h' /\
    (cats = [] -> r = arg /\ h' = h) /\
    (cats <> [] -> (r ∉ dom h) /\ h' !! arg = Some []) /\
    forall p, p ∈ dom h -> p <> arg -> h' !! p = h !! p.
Proof.
  revert arg h l. induction cats as [|c cats IH]; intros arg h l Harg.
  - exists arg, h. simpl. repeat split; try done.
  - destruct (call_convert_seed_range_spec c arg h l Harg)
      as (r1 & h1 & Hcall & Hfresh & Hne & Hr1 & Harg1 & Hdom & Hframe).
    destruct (IH r1 h1 _ Hr1) as (r & h' & Hfold & Hr & Hdom' & Hnil & Hcons & Hrest).
    exists r, h'. simpl. rewrite Hcall. split; [exact Hfold|].
    split; [exact Hr|]. split; [by transitivity (dom h1)|]. split; [discriminate|].
    assert (Hin : arg ∈ dom h) by (apply elem_of_dom; eauto).
    split.
    + intros _. split.
      * destruct cats as [|c' cats'].
        -- destruct Hnil as [-> _]; [reflexivity|]. exact Hfresh.
        -- destruct Hcons as [Hcons _]; [discriminate|].
           intros Hx. apply Hcons, Hdom, Hx.
      * rewrite Hrest; [exact Harg1|apply Hdom, Hin|congruence].
    + intros p Hp Hpa.
      assert (Hp1 : p <> r1) by (intros ->; contradiction).
      rewrite Hrest; [|apply Hdom, Hp|exact Hp1].
      by apply Hframe.
Qed.

(** ** Coverage *)

(** C1. For every category and every list of ranges, the ranges that
    [convert_seed_range] returns hold exactly the images of the input points
    under the category's piecewise map, which is the scalar conversion
    [convert_initial_seed]: that map sends a point to its translation by the
    offset of a rule whose source interval contains it, or to itself when no
    rule covers it; a value lies in some output range exactly when it is the
    image of a point of some input range; and the points of the output
    ranges, listed with multiplicity, are a rearrangement of the images of
    the input points, so every input point is accounted for exactly once. *)
Theorem convert_seed_range_coverage (c : Category.t) (l : list range) :
  let out := Category.converted_ranges (Category.convert_seed_range c l) in
  let f := Category.convert_initial_seed c in
  (forall x, translated_by (Category.category_map c) x (f x)) /\
  (forall y, (exists r, r ∈ out /\ in_range y r)
             <-> (exists r x, r ∈ l /\ in_range x r /\ y = f x)) /\
  all_points out ≡ₚ map f (all_points l).
Proof.
  intros out f. pose proof (convert_seed_range_points c l) as Hperm.
  split; [intros x; apply next_converted_translated|].
  split; [|exact Hperm].
  intros y. rewrite <- elem_of_all_points. fold out in Hperm. rewrite Hperm.
  rewrite list_elem_of_In, in_map_iff. split.
  - intros (x & <- & Hx). apply list_elem_of_In, elem_of_all_points in Hx.
    destruct Hx as (r & Hr & Hx). by exists r, x.
  - intros (r & x & Hr & Hx & ->). exists x. split; [reflexivity|].
    apply list_elem_of_In, elem_of_all_points. by exists r.
Qed.

(** ** Termination and the number of iterations *)

(** The ranges a rule re-queues are non-empty, lie inside the popped range
    with at least one boundary moved strictly inwards, and overlap neither
    the rule that was consumed nor any rule listed before it. *)
Lemma taken_shrinks (pre : list rule) (ru : rule) (start end_ : Z) (p : range) :
  Forall (fun r => ~ overlaps start end_ r) pre ->
  overlaps start end_ ru ->
  p ∈ (taken ru start end_).2 ->
  (start <= p.1 /\ p.1 < p.2 /\ p.2 <= end_ /\ (start < p.1 \/ p.2 < end_))%Z
  /\ Forall (fun r => ~ overlaps p.1 p.2 r) (pre ++ [ru]).
Proof.
  intros Hpre Hru Hp. unfold overlaps in Hru. unfold taken in Hp. cbn [snd] in Hp.
  assert (Hin : (start <= p.1 /\ p.1 < p.2 /\ p.2 <= end_ /\ (start < p.1 \/ p.2 < end_))%Z
                /\ ~ overlaps p.1 p.2 ru).
  { apply elem_of_app in Hp as [Hp|Hp].
    - destruct (Z.gtb_spec (Z.max start ru.1.2) start);
        [apply list_elem_of_singleton in Hp; subst p|by apply elem_of_nil in Hp].
      unfold overlaps. simpl. lia.
    - destruct (Z.gtb_spec end_ (Z.min end_ (ru.1.2 + ru.2)));
        [apply list_elem_of_singleton in Hp; subst p|by apply elem_of_nil in Hp].
      unfold overlaps. simpl. lia. }
  destruct Hin as [Hin Hno]. split; [exact Hin|].
  apply Forall_app. split; [|by constructor].
  eapply Forall_impl; [exact Hpre|]. simpl. intros r Hr. unfold overlaps in *. lia.
Qed.

(** C5. For every category and every input list the work-list loop of
    [convert_seed_range] exits: it runs some number [n] of iterations, one
    per returned range, with [n] at most
    [len(ranges) * (2 * len(rules) + 1)], so linear in ranges times rules.
    Every split re-queues only non-empty ranges inside the popped one with at
    least one boundary moved strictly inwards, and a re-queued range overlaps
    neither the consumed rule nor any rule before it, so a range is split at
    most once per rule. *)
Theorem convert_seed_range_terminates (c : Category.t) (l : list range) :
  (exists n,
      Category.iterations (Category.category_map c) n (Category.mk_state l [])
        (Category.convert_seed_range c l) /\
      (n <= length l * (2 * length (Category.category_map c) + 1))%nat /\
      length (Category.converted_ranges (Category.convert_seed_range c l)) = n) /\
  (forall start end_ converted pushed,
      Category.for_rules (Category.category_map c) start end_ = Some (converted, pushed) ->
      exists pre ru post,
        Category.category_map c = pre ++ ru :: post /\
        forall p, p ∈ pushed ->
          (start <= p.1 /\ p.1 < p.2 /\ p.2 <= end_ /\ (start < p.1 \/ p.2 < end_))%Z
          /\ Forall (fun r => ~ overlaps p.1 p.2 r) (pre ++ [ru])).
Proof.
  split.
  - destruct (convert_seed_range_iterations c l) as (n & Hn & Hle).
    exists n. split; [exact Hn|]. split; [exact Hle|].
    apply iterations_count in Hn. simpl in Hn. exact Hn.
  - intros start end_ converted pushed E. apply for_rules_Some in E.
    destruct E as (pre & ru & post & Hcm & Hpre & Hru & Heq).
    exists pre, ru, post. split; [exact Hcm|]. intros p Hp.
    apply (taken_shrinks pre ru start end_ p Hpre Hru).
    by rewrite <- Heq.
Qed.

(** ** The scalar conversion as a range of length one *)

(** C6. For every category and all integers [n] and [m]:
    [convert_initial_seed(n)] is [m] exactly when [convert_seed_range] on
    the one-element list [[(n, n + 1)]] returns the list [[(m, m + 1)]]. *)
Theorem convert_initial_seed_as_unit_range (c : Category.t) (n m : Z) :
  Category.convert_initial_seed c n = m <->
  Category.converted_ranges (Category.convert_seed_range c [(n, (n + 1)%Z)])
  = [(m, (m + 1)%Z)].
Proof.
  rewrite convert_seed_range_unit. simpl. split.
  - by intros ->.
  - by intros [= -> _].
Qed.

(** ** Pass-through *)

(** C7. A non-empty range of the input list that meets no rule's source
    interval is in the returned list, unchanged; when it is the whole input,
    the returned list is exactly that range. *)
Theorem disjoint_range_passes_through (c : Category.t) (l : list range)
  (start end_ : Z) :
  (start < end_)%Z ->
  (forall ru, ru ∈ Category.category_map c ->
              forall x, in_range x (start, end_) -> ~ in_source x ru) ->
  ((start, end_) ∈ l ->
   (start, end_) ∈ Category.converted_ranges (Category.convert_seed_range c l)) /\
  Category.converted_ranges (Category.convert_seed_range c [(start, end_)])
  = [(start, end_)].
Proof.
  intros _ Hdisj.
  assert (Hno : Forall (fun ru => ~ overlaps start end_ ru) (Category.category_map c)).
  { apply Forall_forall. intros ru Hru. apply disjoint_no_overlap. by apply Hdisj. }
  assert (Hin : forall l', (start, end_) ∈ l' ->
            (start, end_) ∈ Category.converted_ranges (Category.convert_seed_range c l')).
  { intros l' Hl'. destruct (convert_seed_range_iterations c l') as (n & Hn & _).
    eapply (iterations_keeps _ _ _ _ (start, end_)); [exact Hno|exact Hn|by right]. }
  split; [apply Hin|].
  destruct (convert_seed_range_iterations c [(start, end_)]) as (n & Hn & _).
  assert (H1 : Category.iterations (Category.category_map c) 1
                 (Category.mk_state [(start, end_)] [])
                 (Category.mk_state [] [(start, end_)])).
  { constructor; [discriminate|].
    change (Category.mk_state [(start, end_)] [])
      with (Category.mk_state ([] ++ [(start, end_)]) []).
    rewrite loop_body_pop. apply for_rules_None in Hno. rewrite Hno.
    by constructor. }
  destruct (iterations_deterministic _ _ _ _ _ _ Hn H1) as [_ ->]. reflexivity.
Qed.

(** A zero-length (or inverted) range overlaps no rule and is passed through
    as well. *)
Lemma empty_range_no_overlap (start end_ : Z) (ru : rule) :
  (end_ <= start)%Z -> ~ overlaps start end_ ru.
Proof. unfold overlaps. lia. Qed.

(** ** The empty rule list *)

Lemma loop_empty_rules (n : nat) (st st' : Category.loop_state) :
  Category.iterations [] n st st' ->
  Category.converted_ranges st'
  = Category.converted_ranges st ++ rev (Category.seed_ranges_pair st).
Proof.
  induction 1 as [st He|n st st' Hne _ IH].
  - rewrite He. simpl. by rewrite app_nil_r.
  - rewrite IH. destruct st as [w out]. simpl in *.
    destruct (nonempty_snoc w Hne) as (rest & [start end_] & ->).
    rewrite loop_body_pop. simpl. rewrite rev_app_distr. simpl.
    by rewrite <- app_assoc.
Qed.

(** C9. With an empty rule list, [convert_seed_range] returns the input
    ranges unchanged: the returned list holds the same ranges, none
    translated, split, dropped or added. It lists them from the last popped
    to the first, so it is the input list read backwards. *)
Theorem empty_category_returns_input (id : string) (l : list range) :
  let out := Category.converted_ranges
               (Category.convert_seed_range (Category.mk id []) l) in
  out ≡ₚ l /\ out = rev l.
Proof.
  intros out.
  assert (H : out = rev l).
  { destruct (convert_seed_range_iterations (Category.mk id []) l) as (n & Hn & _).
    apply loop_empty_rules in Hn. exact Hn. }
  split; [|exact H]. rewrite H. apply Permutation_sym, Permutation_rev.
Qed.

(** ** First match wins *)

(** C4. Whatever the rules listed after it cover, the first rule in listed
    order that contains the number (scalar variant) or overlaps the popped
    range (range variant) is the one applied: [convert_initial_seed] returns
    the number translated by that rule's offset, and one iteration of the
    loop of [convert_seed_range] appends the translated overlap with that
    rule to the output and re-queues the untouched prefix and suffix of the
    popped range, consuming no other rule. *)
Theorem first_match_wins (c : Category.t) (pre post : list rule) (ru : rule) :
  Category.category_map c = pre ++ ru :: post ->
  (forall n,
      Forall (fun r => ~ in_source n r) pre -> in_source n ru ->
      Category.convert_initial_seed c n = (ru.1.1 + (n - ru.1.2))%Z) /\
  (forall rest out start end_,
      Forall (fun r => ~ overlaps start end_ r) pre -> overlaps start end_ ru ->
      let overlap_start := Z.max start ru.1.2 in
      let overlap_end := Z.min end_ (ru.1.2 + ru.2) in
      Category.loop_body (Category.category_map c)
        (Category.mk_state (rest ++ [(start, end_)]) out)
      = Category.mk_state
          (rest
           ++ (if (start <? overlap_start)%Z then [(start, overlap_start)] else [])
           ++ (if (overlap_end <? end_)%Z then [(overlap_end, end_)] else []))
          (out ++ [((overlap_start - ru.1.2 + ru.1.1)%Z,
                    (overlap_end - ru.1.2 + ru.1.1)%Z)])).
Proof.
  intros Hcm. split.
  - intros n Hpre Hru. unfold Category.convert_initial_seed. rewrite Hcm.
    by apply next_converted_first.
  - intros rest out start end_ Hpre Hru overlap_start overlap_end.
    rewrite loop_body_pop, Hcm, (for_rules_first pre post ru start end_ Hpre Hru).
    unfold taken. fold overlap_start overlap_end. rewrite !Z.gtb_ltb. reflexivity.
Qed.

Lemma first_match_wins_witness :
  let c := Category.mk "overlapping" [(100, 0, 10); (200, 5, 10)]%Z in
  Category.convert_initial_seed c 7 = 107%Z /\
  Category.loop_body (Category.category_map c) (Category.mk_state [(3, 20)%Z] [])
  = Category.mk_state [(10, 20)%Z] [(103, 110)%Z].
Proof.
  intros c.
  destruct (first_match_wins c [] [(200, 5, 10)%Z] (100, 0, 10)%Z eq_refl) as [H1 H2].
  split.
  - apply (H1 7%Z); [constructor|]. unfold in_source. simpl. lia.
  - apply (H2 [] [] 3%Z 20%Z); [constructor|]. unfold overlaps. simpl. lia.
Defined.

Lemma disjoint_range_passes_through_witness :
  let c := Category.mk "soil" [(50, 98, 2); (52, 50, 48)]%Z in
  ((10, 20)%Z ∈ [(60, 70); (10, 20)]%Z ->
   (10, 20)%Z ∈ Category.converted_ranges
                  (Category.convert_seed_range c [(60, 70); (10, 20)]%Z)) /\
  Category.converted_ranges (Category.convert_seed_range c [(10, 20)%Z])
  = [(10, 20)%Z].
Proof.
  intros c. apply (disjoint_range_passes_through c _ 10%Z 20%Z); [lia|].
  intros ru Hru x Hx. unfold in_range in Hx. simpl in Hx.
  apply elem_of_cons in Hru as [->|Hru];
    [|apply list_elem_of_singleton in Hru; subst ru];
    unfold in_source; simpl; lia.
Defined.

(** ** Building the seed ranges *)

Lemma range_step2_lookup (n i : nat) :
  i ∈ range_step2 n <-> exists k, i = (2 * k)%nat /\ (2 * k < n)%nat.
Proof.
  unfold range_step2. rewrite list_elem_of_In, in_map_iff. split.
  - intros (k & <- & Hk). apply in_seq in Hk. exists k. split; [reflexivity|].
    assert ((n + 1) / 2 * 2 <= n + 1)%nat by (rewrite Nat.mul_comm; apply Nat.Div0.mul_div_le).
    lia.
  - intros (k & -> & Hk). exists k. split; [reflexivity|]. apply in_seq.
    assert (S k <= (n + 1) / 2)%nat by (apply Nat.div_le_lower_bound; lia).
    lia.
Qed.

Lemma nth_lookup_Z (seeds : list Z) (i : nat) :
  (i < length seeds)%nat -> seeds !! i = Some (nth i seeds 0%Z).
Proof.
  intros H. destruct (lookup_lt_is_Some_2 seeds i H) as [x Hx].
  rewrite Hx. f_equal. symmetry. by apply nth_lookup_Some.
Qed.

(** C10. Building [seed_ranges] needs an even number of seeds: with an odd
    number of integers the comprehension, and with it [parse_almanac], raises
    [IndexError] (at [initial_seeds[i + 1]] for the last [i]); with an even
    number it yields one range per pair, the [k]-th being
    [(initial_seeds[2k], initial_seeds[2k] + initial_seeds[2k+1])], and
    [parse_almanac] stores that list in [seed_ranges]. *)
Theorem seed_ranges_need_even_count (seeds : list Z) (blocks : list Category.t)
  (h : gmap nat (list range)) :
  (Nat.Odd (length seeds) ->
   Gardener.build_seed_ranges seeds = inl IndexError /\
   Gardener.parse_almanac seeds blocks h = (inl IndexError, h)) /\
  (Nat.Even (length seeds) ->
   exists rs,
     Gardener.build_seed_ranges seeds = inr rs /\
     (2 * length rs = length seeds)%nat /\
     (forall k, (k < length rs)%nat ->
        exists a b, seeds !! (2 * k)%nat = Some a /\ seeds !! (2 * k + 1)%nat = Some b /\
                    rs !! k = Some (a, (a + b)%Z)) /\
     exists g h', Gardener.parse_almanac seeds blocks h = (inr g, h') /\
                  Gardener.initial_seeds g = seeds /\
                  h' !! Gardener.seed_ranges g = Some rs).
Proof.
  split.
  - intros [m Hm].
    assert (Hb : Gardener.build_seed_ranges seeds = inl IndexError).
    { unfold Gardener.build_seed_ranges, range_step2.
      replace ((length seeds + 1) / 2)%nat with (m + 1)%nat
        by (rewrite Hm; apply Nat.div_unique with 0%nat; lia).
      rewrite seq_app, map_app. change (seq (0 + m) 1) with [m].
      change (map ?f [m]) with [f m]. cbv beta.
      apply comprehension_raise with (g := seed_pair_at seeds).
      - intros i Hi. apply list_elem_of_In, in_map_iff in Hi as (k & <- & Hk).
        apply in_seq in Hk.
        rewrite (py_index_Some _ _ _ (nth_lookup_Z seeds (2 * k) ltac:(lia))).
        rewrite (py_index_Some _ _ _ (nth_lookup_Z seeds (2 * k + 1) ltac:(lia))).
        reflexivity.
      - rewrite (py_index_Some _ _ _ (nth_lookup_Z seeds (2 * m) ltac:(lia))).
        rewrite py_index_out by lia. reflexivity. }
    split; [exact Hb|]. unfold Gardener.parse_almanac. by rewrite Hb.
  - intros [m Hm].
    assert (Hb : Gardener.build_seed_ranges seeds
                 = inr (map (seed_pair_at seeds) (range_step2 (length seeds)))).
    { apply comprehension_ok. intros i Hi.
      apply range_step2_lookup in Hi as (k & -> & Hk).
      rewrite (py_index_Some _ _ _ (nth_lookup_Z seeds (2 * k) ltac:(lia))).
      rewrite (py_index_Some _ _ _ (nth_lookup_Z seeds (2 * k + 1) ltac:(lia))).
      reflexivity. }
    assert (Hlen : length (range_step2 (length seeds)) = m).
    { unfold range_step2. rewrite length_map, length_seq, Hm.
      symmetry. apply Nat.div_unique with 1%nat; lia. }
    exists (map (seed_pair_at seeds) (range_step2 (length seeds))).
    split; [exact Hb|]. rewrite length_map, Hlen. split; [lia|]. split.
    + intros k Hk. exists (nth (2 * k) seeds 0%Z), (nth (2 * k + 1) seeds 0%Z).
      split; [apply nth_lookup_Z; lia|]. split; [apply nth_lookup_Z; lia|].
      change (map ?f ?l !! k) with ((f <$> l) !! k). rewrite list_lookup_fmap.
      unfold range_step2.
      change (map ?f ?l !! k) with ((f <$> l) !! k). rewrite list_lookup_fmap.
      rewrite lookup_seq_lt by (rewrite <- Hlen in Hk; unfold range_step2 in Hk;
                                by rewrite length_map, length_seq in Hk).
      reflexivity.
    + unfold Gardener.parse_almanac, alloc. rewrite Hb.
      eexists _, _. split; [reflexivity|]. split; [reflexivity|].
      simpl. apply lookup_insert_eq.
Qed.

Lemma seed_ranges_need_even_count_witness :
  Gardener.build_seed_ranges [79; 14; 55]%Z = inl IndexError /\
  exists rs, Gardener.build_seed_ranges [79; 14; 55; 13]%Z = inr rs /\
             rs !! 1%nat = Some (55, 68)%Z.
Proof.
  split.
  - apply (seed_ranges_need_even_count [79; 14; 55]%Z [] ∅). by exists 1%nat.
  - destruct (seed_ranges_need_even_count [79; 14; 55; 13]%Z [] ∅) as [_ H].
    destruct H as (rs & Hrs & Hlen & Hk & _); [by exists 2%nat|].
    exists rs. split; [exact Hrs|].
    destruct (Hk 1%nat) as (a & b & Ha & Hb & Hr); [simpl in Hlen; lia|].
    simpl in Ha, Hb. injection Ha as <-. injection Hb as <-. exact Hr.
Defined.

(** ** The pipeline of categories *)

Lemma convert_to_location_seed_ranges_spec (g : Gardener.t) (arg : nat)
  (h : gmap nat (list range)) (l : list range) :
  h !! arg = Some l ->
  exists r h',
    Gardener.convert_to_location_seed_ranges g arg h = (r, h') /\
    h' !! r = Some (pipeline (Gardener.categories g) l) /\
    dom h ⊆ dom h' /\
    (Gardener.categories g = [] -> r = arg /\ h' = h) /\
    (Gardener.categories g <> [] -> (r ∉ dom h) /\ h' !! arg = Some []) /\
    forall p, p ∈ dom h -> p <> arg -> h' !! p = h !! p.
Proof. apply fold_calls_spec. Qed.

Lemma pipeline_points (cats : list Category.t) (l : list range) :
  all_points (pipeline cats l)
  ≡ₚ map (fun x => fold_left (fun n c => Category.convert_initial_seed c n) cats x)
       (all_points l).
Proof.
  revert l. induction cats as [|c cats IH]; intros l; simpl.
  - by rewrite map_id.
  - unfold pipeline in *. simpl. rewrite IH, convert_seed_range_points.
    by rewrite map_map.
Qed.

(** C3, as stated, at its own example: the two categories do not turn
    [[2,8)] into the ranges [[1002,1005)] and [[107,108)]. *)
Lemma chained_example_differs :
  let a := Category.mk "a" [(100, 0, 10)%Z] in
  let b := Category.mk "b" [(1000, 100, 5)%Z] in
  let g := Gardener.mk [] 0 [a; b] in
  ~ exists r h' (out : list range),
      Gardener.convert_to_location_seed_ranges g 0 (one_list [(2, 8)%Z]) = (r, h') /\
      h' !! r = Some out /\
      out ≡ₚ [(1002, 1005); (107, 108)]%Z.
Proof.
  intros a b g (r & h' & out & Hrun & Hout & Hperm).
  destruct (convert_to_location_seed_ranges_spec g 0 (one_list [(2, 8)%Z]) [(2, 8)%Z])
    as (r0 & h0 & Hrun0 & Hout0 & _); [apply lookup_singleton_eq|].
  assert (Hr : r0 = r /\ h0 = h') by (split; congruence).
  destruct Hr as [-> ->].
  assert (Ho : out = pipeline (Gardener.categories g) [(2, 8)%Z]) by congruence.
  rewrite Ho in Hperm.
  change (pipeline (Gardener.categories g) [(2, 8)%Z])
    with [(1002, 1005); (105, 108)]%Z in Hperm.
  assert (Hin : (105, 108)%Z ∈ [(1002, 1005); (107, 108)]%Z).
  { rewrite <- Hperm. right. left. }
  apply elem_of_cons in Hin as [Hin|Hin]; [discriminate|].
  apply list_elem_of_singleton in Hin. discriminate.
Qed.

(** C3, amended. Passing a list of ranges through two categories in
    sequence yields ranges whose points, with multiplicity, are the images of
    the input points under the composition of the two scalar conversions;
    with the rule [(100, 0, 10)] in the first category and [(1000, 100, 5)]
    in the second, the range [[2,8)] yields [[1002,1005)] and [[105,108)]. *)
Theorem chained_categories_compose (g : Gardener.t) (a b : Category.t) (arg : nat)
  (h : gmap nat (list range)) (l : list range) :
  Gardener.categories g = [a; b] ->
  h !! arg = Some l ->
  exists r h' out,
    Gardener.convert_to_location_seed_ranges g arg h = (r, h') /\
    h' !! r = Some out /\
    all_points out
    ≡ₚ map (fun x => Category.convert_initial_seed b (Category.convert_initial_seed a x))
         (all_points l) /\
    (Category.category_map a = [(100, 0, 10)%Z] ->
     Category.category_map b = [(1000, 100, 5)%Z] ->
     l = [(2, 8)%Z] ->
     out = [(1002, 1005); (105, 108)]%Z).
Proof.
  intros Hcats Harg.
  destruct (convert_to_location_seed_ranges_spec g arg h l Harg)
    as (r & h' & Hrun & Hout & _).
  exists r, h', (pipeline (Gardener.categories g) l).
  split; [exact Hrun|]. split; [exact Hout|]. rewrite Hcats. split.
  - apply (pipeline_points [a; b] l).
  - destruct a as [ida ma], b as [idb mb]. simpl. intros -> -> ->. reflexivity.
Qed.

Lemma chained_categories_compose_witness :
  let a := Category.mk "a" [(100, 0, 10)%Z] in
  let b := Category.mk "b" [(1000, 100, 5)%Z] in
  exists r h' out,
    Gardener.convert_to_location_seed_ranges (Gardener.mk [] 0 [a; b]) 0
      (one_list [(2, 8)%Z]) = (r, h') /\
    h' !! r = Some out /\
    out = [(1002, 1005); (105, 108)]%Z.
Proof.
  intros a b.
  destruct (chained_categories_compose (Gardener.mk [] 0 [a; b]) a b 0
              (one_list [(2, 8)%Z]) [(2, 8)%Z] eq_refl)
    as (r & h' & out & Hrun & Hout & _ & Hex); [apply lookup_singleton_eq|].
  exists r, h', out. split; [exact Hrun|]. split; [exact Hout|].
  apply Hex; reflexivity.
Defined.

(** ** The caller's list *)

(** C2, as stated, on a Gardener with one (empty) category and the seed
    range [(1, 2)]: the call empties the list it is given, and
    [seed_ranges] no longer holds its range afterwards. *)
Lemma seed_ranges_not_preserved :
  let c := Category.mk "c" [] in
  let g := Gardener.mk [1; 1]%Z 0 [c] in
  let h := one_list [(1, 2)%Z] in
  Category.seed_ranges_pair (Category.convert_seed_range c [(1, 2)%Z]) <> [(1, 2)%Z] /\
  (Gardener.find_lowest_location_from_seed_ranges g h).2 !! Gardener.seed_ranges g
  <> h !! Gardener.seed_ranges g.
Proof.
  intros c g h. split; [discriminate|].
  unfold Gardener.find_lowest_location_from_seed_ranges.
  destruct (convert_to_location_seed_ranges_spec g 0 h [(1, 2)%Z])
    as (r & h' & Hrun & _ & _ & _ & Hcons & _); [apply lookup_singleton_eq|].
  change (Gardener.seed_ranges g) with 0%nat. rewrite Hrun.
  destruct Hcons as [_ Hnil]; [discriminate|].
  destruct (py_min (h' !!! r)); cbn [snd]; intros Heq; rewrite Hnil in Heq;
    unfold h, one_list in Heq; rewrite lookup_singleton_eq in Heq; discriminate.
Qed.

(** C2, amended. The list [convert_seed_range] returns is determined by the
    category and the contents of the list it is given, but the call is not
    free of effects: the caller's list object is its work-list and is empty
    when it returns, while every other list object keeps its contents. So
    after [find_lowest_location_from_seed_ranges] on a Gardener with at
    least one category [seed_ranges] is the empty list (with no category it
    is unchanged), every other list is as before, and the value returned is
    the least start of the pipeline's output on the original ranges. *)
Theorem convert_seed_range_drains_argument (g : Gardener.t)
  (h : gmap nat (list range)) (l : list range) :
  h !! Gardener.seed_ranges g = Some l ->
  (forall c arg (h0 : gmap nat (list range)) l0,
      h0 !! arg = Some l0 ->
      exists r h1,
        call_convert_seed_range c arg h0 = (r, h1) /\
        h1 !! r = Some (Category.converted_ranges (Category.convert_seed_range c l0)) /\
        h1 !! arg = Some [] /\
        forall p, p <> arg -> p <> r -> h1 !! p = h0 !! p) /\
  let res := Gardener.find_lowest_location_from_seed_ranges g h in
  res.2 !! Gardener.seed_ranges g
  = Some (match Gardener.categories g with [] => l | _ :: _ => [] end) /\
  (forall p, p ∈ dom h -> p <> Gardener.seed_ranges g -> res.2 !! p = h !! p) /\
  res.1 = match py_min (pipeline (Gardener.categories g) l) with
          | inl e => inl e
          | inr m => inr m.1
          end.
Proof.
  intros Hl. split.
  - intros c arg h0 l0 H0.
    destruct (call_convert_seed_range_spec c arg h0 l0 H0)
      as (r & h1 & Hcall & _ & _ & Hr & Harg & _ & Hframe).
    by exists r, h1.
  - unfold Gardener.find_lowest_location_from_seed_ranges.
    destruct (convert_to_location_seed_ranges_spec g _ h l Hl)
      as (r & h' & Hrun & Hout & _ & Hnil & Hcons & Hframe).
    rewrite Hrun, (lookup_total_correct h' r _ Hout).
    destruct (py_min (pipeline (Gardener.categories g) l)); simpl.
    all: split; [|split; [exact Hframe|reflexivity]].
    all: destruct (Gardener.categories g) eqn:E;
      [destruct Hnil as [-> ->]; [reflexivity|exact Hl]
      |destruct Hcons as [_ ->]; [discriminate|reflexivity]].
Qed.

Lemma convert_seed_range_drains_argument_witness :
  let g := Gardener.mk [1; 1]%Z 0 [Category.mk "c" [(10, 1, 1)%Z]] in
  let res := Gardener.find_lowest_location_from_seed_ranges g (one_list [(1, 2)%Z]) in
  res.2 !! 0%nat = Some [] /\ res.1 = inr 10%Z.
Proof.
  intros g res.
  destruct (convert_seed_range_drains_argument g (one_list [(1, 2)%Z]) [(1, 2)%Z])
    as (_ & H1 & _ & H2); [apply lookup_singleton_eq|].
  split; [exact H1|exact H2].
Defined.

(** ** The lowest location *)

(** C8. When the final list of ranges is not empty,
    [find_lowest_location_from_seed_ranges] returns the least start among its
    ranges: the value is the start of one of them and is at most the start of
    each; for the final ranges [(50,60)], [(10,20)] and [(200,210)], in any
    order, it is 10. *)
Theorem lowest_location_is_min_start (g : Gardener.t) (h : gmap nat (list range))
  (final : list range) :
  (let '(r, h') := Gardener.convert_to_location_seed_ranges g (Gardener.seed_ranges g) h in
   h' !!! r) = final ->
  final <> [] ->
  exists m,
    (Gardener.find_lowest_location_from_seed_ranges g h).1 = inr m /\
    m ∈ map fst final /\
    (forall r, r ∈ final -> (m <= r.1)%Z) /\
    (final ≡ₚ [(50, 60); (10, 20); (200, 210)]%Z -> m = 10%Z).
Proof.
  unfold Gardener.find_lowest_location_from_seed_ranges.
  destruct (Gardener.convert_to_location_seed_ranges g (Gardener.seed_ranges g) h)
    as [r h'].
  intros -> Hne. destruct (py_min_spec _ Hne) as (m & Hmin & Hin & Hle).
  rewrite Hmin. simpl. exists m.1. split; [reflexivity|].
  split; [apply list_elem_of_In, in_map, list_elem_of_In, Hin|].
  split; [exact Hle|].
  intros Hperm.
  assert (H10 : (m.1 <= 10)%Z).
  { apply (Hle (10, 20)%Z). rewrite Hperm. right. left. }
  rewrite Hperm in Hin.
  repeat (apply elem_of_cons in Hin as [->|Hin]; [simpl in *; lia|]).
  by apply elem_of_nil in Hin.
Qed.

Lemma lowest_location_is_min_start_witness :
  exists m,
    (Gardener.find_lowest_location_from_seed_ranges (Gardener.mk [] 0 [])
       (one_list [(50, 60); (10, 20); (200, 210)]%Z)).1 = inr m /\
    m = 10%Z.
Proof.
  destruct (lowest_location_is_min_start (Gardener.mk [] 0 [])
              (one_list [(50, 60); (10, 20); (200, 210)]%Z)
              [(50, 60); (10, 20); (200, 210)]%Z)
    as (m & Hm & _ & _ & H10); [reflexivity|discriminate|].
  exists m. split; [exact Hm|]. by apply H10.
Defined.

(** * Further properties of the almanac code *)

(** ** The lowest location of the initial seeds *)

Lemma fold_min_int_spec (r : list Z) (x : Z) :
  let m := fold_left (fun m y => if (y <? m)%Z then y else m) r x in
  m ∈ x :: r /\ forall y, y ∈ x :: r -> (m <= y)%Z.
Proof.
  revert x. induction r as [|y r IH]; intros x; cbn [fold_left].
  - split; [left|]. intros z Hz. apply list_elem_of_singleton in Hz. lia.
  - pose proof (IH (if (y <? x)%Z then y else x)) as H. cbv zeta in H.
    destruct H as [Hin Hle]. split.
    + apply elem_of_cons in Hin as [->|Hin].
      * destruct (y <? x)%Z; [right; left|left].
      * right. by right.
    + intros z Hz.
      assert (Hm := Hle _ (list_elem_of_here _ _)).
      destruct (Z.ltb_spec y x);
        (apply elem_of_cons in Hz as [->|Hz]; [lia|]);
        (apply elem_of_cons in Hz as [->|Hz]; [lia|]);
        apply Hle; by right.
Qed.

Lemma py_min_int_spec (l : list Z) :
  l <> [] ->
  exists m, py_min_int l = inr m /\ m ∈ l /\ forall y, y ∈ l -> (m <= y)%Z.
Proof.
  destruct l as [|x r]; [contradiction|]. intros _.
  eexists. split; [reflexivity|]. apply fold_min_int_spec.
Qed.

(** X1. [find_lowest_location_from_initial_seeds] raises [ValueError] when
    there is no initial seed; otherwise it returns the location of one of
    the initial seeds, and no initial seed has a lower location. *)
Theorem lowest_initial_seed_location (g : Gardener.t) :
  (Gardener.initial_seeds g = [] ->
   Gardener.find_lowest_location_from_initial_seeds g = inl ValueError) /\
  (Gardener.initial_seeds g <> [] ->
   exists m,
     Gardener.find_lowest_location_from_initial_seeds g = inr m /\
     (exists s, s ∈ Gardener.initial_seeds g /\
                m = Gardener.convert_to_location_initial_seeds g s) /\
     forall s, s ∈ Gardener.initial_seeds g ->
               (m <= Gardener.convert_to_location_initial_seeds g s)%Z).
Proof.
  unfold Gardener.find_lowest_location_from_initial_seeds. split.
  - intros ->. reflexivity.
  - intros Hne.
    destruct (py_min_int_spec
                (map (Gardener.convert_to_location_initial_seeds g)
                     (Gardener.initial_seeds g))) as (m & Hm & Hin & Hle).
    { destruct (Gardener.initial_seeds g); [contradiction|discriminate]. }
    exists m. split; [exact Hm|]. split.
    + apply list_elem_of_In, in_map_iff in Hin as (s & <- & Hs).
      exists s. split; [by apply list_elem_of_In|reflexivity].
    + intros s Hs. apply Hle, list_elem_of_In, in_map, list_elem_of_In, Hs.
Qed.

Lemma lowest_initial_seed_location_witness :
  let g := Gardener.mk [79; 14; 55; 13]%Z 0
             [Category.mk "seed_to_soil_map" [(50, 98, 2); (52, 50, 48)]%Z] in
  exists m, Gardener.find_lowest_location_from_initial_seeds g = inr m /\
            forall s, s ∈ Gardener.initial_seeds g ->
                      (m <= Gardener.convert_to_location_initial_seeds g s)%Z.
Proof.
  intros g. destruct (lowest_initial_seed_location g) as [_ H].
  destruct H as (m & Hm & _ & Hle); [discriminate|].
  exists m. split; [exact Hm|exact Hle].
Defined.

(** ** Invariants of the work-list loop *)

(** A property of the loop state that every iteration keeps holds when the
    loop exits. *)
Lemma iterations_invariant (cm : list rule) (I : Category.loop_state -> Prop)
  (n : nat) (st st' : Category.loop_state) :
  (forall s, Category.seed_ranges_pair s <> [] -> I s -> I (Category.loop_body cm s)) ->
  Category.iterations cm n st st' -> I st -> I st'.
Proof.
  intros Hstep. induction 1 as [st _|n st st' Hne _ IH]; intros HI; [exact HI|].
  apply IH, Hstep; assumption.
Qed.

Lemma taken_converted_nonempty (ru : rule) (start end_ : Z) :
  overlaps start end_ ru -> nonempty (taken ru start end_).1.
Proof. unfold overlaps, nonempty, taken. simpl. lia. Qed.

Lemma loop_body_nonempty (cm : list rule) (st : Category.loop_state) :
  Category.seed_ranges_pair st <> [] ->
  Forall nonempty (Category.seed_ranges_pair st)
  /\ Forall nonempty (Category.converted_ranges st) ->
  Forall nonempty (Category.seed_ranges_pair (Category.loop_body cm st))
  /\ Forall nonempty (Category.converted_ranges (Category.loop_body cm st)).
Proof.
  destruct st as [w out]. simpl. intros Hne [Hw Hout].
  destruct (nonempty_snoc w Hne) as (rest & [start end_] & ->).
  apply Forall_app in Hw as [Hrest Hlast]. rewrite loop_body_pop.
  destruct (Category.for_rules cm start end_) as [[conv pushed]|] eqn:E; simpl.
  - apply for_rules_Some in E.
    destruct E as (pre & ru & post & _ & Hpre & Hru & Heq).
    assert (Hc : conv = (taken ru start end_).1) by (by rewrite <- Heq).
    assert (Hp : pushed = (taken ru start end_).2) by (by rewrite <- Heq).
    split.
    + apply Forall_app. split; [exact Hrest|]. apply Forall_forall.
      intros p Hin. rewrite Hp in Hin.
      destruct (taken_shrinks pre ru start end_ p Hpre Hru Hin) as [H _].
      unfold nonempty. lia.
    + apply Forall_app. split; [exact Hout|]. constructor; [|constructor].
      rewrite Hc. by apply taken_converted_nonempty.
  - split; [exact Hrest|]. apply Forall_app. by split.
Qed.

Lemma convert_seed_range_nonempty (c : Category.t) (l : list range) :
  Forall nonempty l ->
  Forall nonempty (Category.converted_ranges (Category.convert_seed_range c l)).
Proof.
  intros Hl. destruct (convert_seed_range_iterations c l) as (n & Hn & _).
  apply (iterations_invariant _
           (fun s => Forall nonempty (Category.seed_ranges_pair s)
                     /\ Forall nonempty (Category.converted_ranges s)) _ _ _
           (loop_body_nonempty _) Hn).
  split; [exact Hl|constructor].
Qed.

Lemma pipeline_nonempty (cats : list Category.t) (l : list range) :
  Forall nonempty l -> Forall nonempty (pipeline cats l).
Proof.
  revert l. induction cats as [|c cats IH]; intros l Hl; [exact Hl|].
  apply (IH _ (convert_seed_range_nonempty c l Hl)).
Qed.

(** X3. [convert_seed_range] never makes an empty range: when every range
    of the input list has [start < end], so has every range of the returned
    list, for one category and for the whole pipeline of categories. *)
Theorem nonempty_ranges_stay_nonempty (c : Category.t) (cats : list Category.t)
  (l : list range) :
  Forall nonempty l ->
  Forall nonempty (Category.converted_ranges (Category.convert_seed_range c l))
  /\ Forall nonempty (pipeline cats l).
Proof.
  intros Hl. split; [by apply convert_seed_range_nonempty|by apply pipeline_nonempty].
Qed.

Lemma nonempty_ranges_stay_nonempty_witness :
  let c := Category.mk "soil" [(50, 98, 2); (52, 50, 48)]%Z in
  Forall nonempty
    (Category.converted_ranges (Category.convert_seed_range c [(79, 93); (40, 60)]%Z)).
Proof.
  intros c.
  apply (nonempty_ranges_stay_nonempty c [] [(79, 93); (40, 60)]%Z).
  repeat constructor.
Defined.

(** ** The lowest location of the seed ranges *)

Lemma find_lowest_location_from_seed_ranges_spec (g : Gardener.t)
  (h : gmap nat (list range)) (l : list range) :
  h !! Gardener.seed_ranges g = Some l ->
  exists h',
    Gardener.find_lowest_location_from_seed_ranges g h
    = (match py_min (pipeline (Gardener.categories g) l) with
       | inl e => inl e
       | inr m => inr m.1
       end, h') /\
    (Gardener.categories g = [] -> h' = h) /\
    (Gardener.categories g <> [] -> h' !! Gardener.seed_ranges g = Some []).
Proof.
  intros Hl. unfold Gardener.find_lowest_location_from_seed_ranges.
  destruct (convert_to_location_seed_ranges_spec g _ h l Hl)
    as (r & h' & Hrun & Hout & _ & Hnil & Hcons & _).
  rewrite Hrun, (lookup_total_correct h' r _ Hout). exists h'. split.
  - by destruct (py_min (pipeline (Gardener.categories g) l)).
  - split; [intros H; by destruct (Hnil H)|intros H; by destruct (Hcons H)].
Qed.

Lemma elem_of_points_start (r : range) : nonempty r -> r.1 ∈ points r.
Proof. intros H. apply elem_of_points. unfold in_range, nonempty in *. lia. Qed.

Lemma lowest_range_location_spec (g : Gardener.t)
  (h : gmap nat (list range)) (l : list range) :
  h !! Gardener.seed_ranges g = Some l ->
  l <> [] ->
  Forall nonempty l ->
  exists m,
    (Gardener.find_lowest_location_from_seed_ranges g h).1 = inr m /\
    (exists r x, r ∈ l /\ in_range x r /\
                 m = Gardener.convert_to_location_initial_seeds g x) /\
    forall r x, r ∈ l -> in_range x r ->
                (m <= Gardener.convert_to_location_initial_seeds g x)%Z.
Proof.
  intros Hl Hne Hall.
  destruct (find_lowest_location_from_seed_ranges_spec g h l Hl) as (h' & -> & _).
  set (final := pipeline (Gardener.categories g) l).
  pose proof (pipeline_points (Gardener.categories g) l) as Hperm. fold final in Hperm.
  pose proof (pipeline_nonempty (Gardener.categories g) l Hall) as Hfin. fold final in Hfin.
  assert (Himg : forall y, y ∈ all_points final <->
            exists r x, r ∈ l /\ in_range x r /\
                        y = Gardener.convert_to_location_initial_seeds g x).
  { intros y. rewrite Hperm, list_elem_of_In, in_map_iff. split.
    - intros (x & <- & Hx). apply list_elem_of_In, elem_of_all_points in Hx.
      destruct Hx as (r & Hr & Hx). by exists r, x.
    - intros (r & x & Hr & Hx & ->). exists x. split; [reflexivity|].
      apply list_elem_of_In, elem_of_all_points. by exists r. }
  assert (Hfne : final <> []).
  { intros He. destruct l as [|r0 l']; [contradiction|].
    inversion Hall as [|? ? Hr0 _]; subst.
    assert (Hin : Gardener.convert_to_location_initial_seeds g r0.1 ∈ all_points final).
    { apply Himg. exists r0, r0.1. split; [left|]. split; [|reflexivity].
      unfold in_range, nonempty in *. lia. }
    rewrite He in Hin. by apply elem_of_nil in Hin. }
  destruct (py_min_spec final Hfne) as (m & -> & Hin & Hle). simpl.
  exists m.1. split; [reflexivity|]. split.
  - apply Himg, elem_of_all_points. exists m. split; [exact Hin|].
    apply elem_of_points, elem_of_points_start.
    eapply Forall_forall in Hfin; [exact Hfin|exact Hin].
  - intros r x Hr Hx.
    assert (Hy : Gardener.convert_to_location_initial_seeds g x ∈ all_points final).
    { apply Himg. by exists r, x. }
    apply elem_of_all_points in Hy as (o & Ho & Hyo).
    pose proof (Hle o Ho). unfold in_range in Hyo. lia.
Qed.

(** X2. When there is at least one seed range and every seed range has
    [start < end], [find_lowest_location_from_seed_ranges] returns what the
    scalar conversion gives seed by seed: the value returned is
    [convert_to_location_initial_seeds] of a seed of one of the ranges, and
    no seed of any range is converted to a lower location. *)
Theorem lowest_range_location_is_lowest_seed_location (g : Gardener.t)
  (h : gmap nat (list range)) (l : list range) :
  h !! Gardener.seed_ranges g = Some l ->
  l <> [] ->
  Forall nonempty l ->
  exists m,
    (Gardener.find_lowest_location_from_seed_ranges g h).1 = inr m /\
    (exists r x, r ∈ l /\ in_range x r /\
                 m = Gardener.convert_to_location_initial_seeds g x) /\
    forall r x, r ∈ l -> in_range x r ->
                (m <= Gardener.convert_to_location_initial_seeds g x)%Z.
Proof. apply lowest_range_location_spec. Qed.

Lemma lowest_range_location_is_lowest_seed_location_witness :
  let g := Gardener.mk [79; 14; 55; 13]%Z 0
             [Category.mk "seed_to_soil_map" [(50, 98, 2); (52, 50, 48)]%Z] in
  exists m,
    (Gardener.find_lowest_location_from_seed_ranges g
       (one_list [(79, 93); (55, 68)]%Z)).1 = inr m /\
    forall r x, r ∈ [(79, 93); (55, 68)]%Z -> in_range x r ->
                (m <= Gardener.convert_to_location_initial_seeds g x)%Z.
Proof.
  intros g.
  destruct (lowest_range_location_is_lowest_seed_location g
              (one_list [(79, 93); (55, 68)]%Z) [(79, 93); (55, 68)]%Z)
    as (m & Hm & _ & Hle);
    [apply lookup_singleton_eq|discriminate|repeat constructor|].
  exists m. split; [exact Hm|exact Hle].
Defined.

(** ** How many integers the ranges hold *)

Lemma length_points (r : range) : length (points r) = Z.to_nat (r.2 - r.1).
Proof. unfold points. by rewrite length_map, length_seq. Qed.

Lemma total_length_points (l : list range) :
  total_length l = Z.of_nat (length (all_points l)).
Proof.
  unfold all_points. induction l as [|r l IH]; [reflexivity|].
  cbn [total_length fold_right flat_map]. fold (total_length l).
  rewrite length_app, length_points, IH. lia.
Qed.

(** X4. [convert_seed_range] conserves the number of integers in the
    ranges: the returned ranges hold as many integers, counted range by
    range, as the input ranges, for one category and for the pipeline. *)
Theorem total_length_conserved (c : Category.t) (cats : list Category.t)
  (l : list range) :
  total_length (Category.converted_ranges (Category.convert_seed_range c l))
  = total_length l
  /\ total_length (pipeline cats l) = total_length l.
Proof.
  rewrite !total_length_points. split; f_equal.
  - rewrite (convert_seed_range_points c l). apply length_map.
  - rewrite (pipeline_points cats l). apply length_map.
Qed.

(** ** Empty and zero-length input *)

Lemma pipeline_nil (cats : list Category.t) : pipeline cats [] = [].
Proof. induction cats as [|c cats IH]; [reflexivity|exact IH]. Qed.

(** X5. [find_lowest_location_from_seed_ranges] cannot be called twice: on
    a Gardener with at least one category, a second call, made on the store
    the first call leaves, raises [ValueError], whatever the first call
    returned. *)
Theorem second_call_raises (g : Gardener.t) (h : gmap nat (list range))
  (l : list range) :
  h !! Gardener.seed_ranges g = Some l ->
  Gardener.categories g <> [] ->
  (Gardener.find_lowest_location_from_seed_ranges g
     (Gardener.find_lowest_location_from_seed_ranges g h).2).1 = inl ValueError.
Proof.
  intros Hl Hcats.
  destruct (find_lowest_location_from_seed_ranges_spec g h l Hl) as (h1 & -> & _ & H1).
  cbn [snd].
  destruct (find_lowest_location_from_seed_ranges_spec g h1 [] (H1 Hcats))
    as (h2 & -> & _).
  by rewrite pipeline_nil.
Qed.

Lemma second_call_raises_witness :
  let g := Gardener.mk [79; 14]%Z 0
             [Category.mk "seed_to_soil_map" [(50, 98, 2); (52, 50, 48)]%Z] in
  let first := Gardener.find_lowest_location_from_seed_ranges g (one_list [(79, 93)%Z]) in
  first.1 = inr 81%Z /\
  (Gardener.find_lowest_location_from_seed_ranges g first.2).1 = inl ValueError.
Proof.
  intros g first. split.
  - destruct (find_lowest_location_from_seed_ranges_spec g (one_list [(79, 93)%Z])
                [(79, 93)%Z]) as (h1 & H & _); [apply lookup_singleton_eq|].
    unfold first. by rewrite H.
  - apply (second_call_raises g (one_list [(79, 93)%Z]) [(79, 93)%Z]);
      [apply lookup_singleton_eq|discriminate].
Defined.

(** X6. An almanac with no seed is accepted by [parse_almanac], whatever
    its blocks, and gives a Gardener on which both
    [find_lowest_location_from_initial_seeds] and
    [find_lowest_location_from_seed_ranges] raise [ValueError]. *)
Theorem no_seed_raises (blocks : list Category.t) (h : gmap nat (list range)) :
  exists g h',
    Gardener.parse_almanac [] blocks h = (inr g, h') /\
    Gardener.categories g = blocks /\
    h' !! Gardener.seed_ranges g = Some [] /\
    Gardener.find_lowest_location_from_initial_seeds g = inl ValueError /\
    (Gardener.find_lowest_location_from_seed_ranges g h').1 = inl ValueError.
Proof.
  eexists _, _. split; [reflexivity|]. split; [reflexivity|].
  assert (Hs : forall (h0 : gmap nat (list range)) r, <[r := []]> h0 !! r = Some [])
    by (intros; apply lookup_insert_eq).
  split; [apply Hs|]. split; [reflexivity|].
  match goal with
  | |- (Gardener.find_lowest_location_from_seed_ranges ?g ?h').1 = _ =>
      destruct (find_lowest_location_from_seed_ranges_spec g h' [] (Hs _ _))
        as (h2 & -> & _)
  end.
  by rewrite pipeline_nil.
Qed.

Lemma convert_seed_range_untouched (c : Category.t) (start end_ : Z) :
  Forall (fun ru => ~ overlaps start end_ ru) (Category.category_map c) ->
  Category.convert_seed_range c [(start, end_)]
  = Category.mk_state [] [(start, end_)].
Proof.
  intros Hno.
  destruct (convert_seed_range_iterations c [(start, end_)]) as (n & Hn & _).
  assert (H1 : Category.iterations (Category.category_map c) 1
                 (Category.mk_state [(start, end_)] [])
                 (Category.mk_state [] [(start, end_)])).
  { constructor; [discriminate|].
    change (Category.mk_state [(start, end_)] [])
      with (Category.mk_state ([] ++ [(start, end_)]) []).
    rewrite loop_body_pop. apply for_rules_None in Hno. rewrite Hno.
    by constructor. }
  by destruct (iterations_deterministic _ _ _ _ _ _ Hn H1) as [_ ->].
Qed.

Lemma pipeline_zero_length (cats : list Category.t) (start end_ : Z) :
  (end_ <= start)%Z -> pipeline cats [(start, end_)] = [(start, end_)].
Proof.
  intros Hle. induction cats as [|c cats IH]; [reflexivity|].
  unfold pipeline in *. cbn [fold_left].
  rewrite convert_seed_range_untouched; [exact IH|].
  apply Forall_forall. intros ru _. by apply empty_range_no_overlap.
Qed.

(** X7. A seed range without any seed in it ([end <= start], as a seed count
    of zero gives) is not dropped: every category passes it on unchanged,
    and as the only seed range it makes
    [find_lowest_location_from_seed_ranges] return its start, whatever the
    categories are. *)
Theorem zero_length_range_is_reported (g : Gardener.t) (h : gmap nat (list range))
  (start end_ : Z) :
  (end_ <= start)%Z ->
  h !! Gardener.seed_ranges g = Some [(start, end_)] ->
  pipeline (Gardener.categories g) [(start, end_)] = [(start, end_)] /\
  (Gardener.find_lowest_location_from_seed_ranges g h).1 = inr start.
Proof.
  intros Hle Hl. pose proof (pipeline_zero_length (Gardener.categories g) _ _ Hle) as Hp.
  split; [exact Hp|].
  destruct (find_lowest_location_from_seed_ranges_spec g h _ Hl) as (h' & -> & _).
  by rewrite Hp.
Qed.

Lemma zero_length_range_is_reported_witness :
  let g := Gardener.mk [60; 0]%Z 0
             [Category.mk "seed_to_soil_map" [(50, 98, 2); (52, 50, 48)]%Z] in
  (Gardener.find_lowest_location_from_seed_ranges g (one_list [(60, 60)%Z])).1
  = inr 60%Z.
Proof.
  intros g.
  apply (zero_length_range_is_reported g (one_list [(60, 60)%Z]) 60%Z 60%Z);
    [lia|apply lookup_singleton_eq].
Defined.

(** ** The list object that is returned *)

(** X8. With no category, [convert_to_location_seed_ranges] returns the
    very list object it was given and changes nothing; with at least one
    category it returns a list object that did not exist before the call,
    holding the output of the pipeline, and every list object other than the
    argument keeps its contents. *)
Theorem returned_list_object (g : Gardener.t) (arg : nat)
  (h : gmap nat (list range)) (l : list range) :
  h !! arg = Some l ->
  exists r h',
    Gardener.convert_to_location_seed_ranges g arg h = (r, h') /\
    h' !! r = Some (pipeline (Gardener.categories g) l) /\
    (Gardener.categories g = [] -> r = arg /\ h' = h) /\
    (Gardener.categories g <> [] -> h !! r = None) /\
    forall p, p <> arg -> is_Some (h !! p) -> h' !! p = h !! p.
Proof.
  intros Harg.
  destruct (convert_to_location_seed_ranges_spec g arg h l Harg)
    as (r & h' & Hrun & Hout & _ & Hnil & Hcons & Hframe).
  exists r, h'. split; [exact Hrun|]. split; [exact Hout|]. split; [exact Hnil|].
  split.
  - intros Hc. destruct (Hcons Hc) as [Hr _]. by apply not_elem_of_dom.
  - intros p Hp Hsome. apply Hframe; [by apply elem_of_dom|exact Hp].
Qed.

Lemma returned_list_object_witness :
  exists r h',
    Gardener.convert_to_location_seed_ranges (Gardener.mk [] 0 []) 0
      (one_list [(79, 93)%Z]) = (r, h') /\
    r = 0%nat /\ h' = one_list [(79, 93)%Z].
Proof.
  destruct (returned_list_object (Gardener.mk [] 0 []) 0 (one_list [(79, 93)%Z])
              [(79, 93)%Z]) as (r & h' & Hrun & _ & Hnil & _);
    [apply lookup_singleton_eq|].
  exists r, h'. split; [exact Hrun|]. by apply Hnil.
Defined.

(** ** Rules that cannot match *)

Lemma live_rules_cons (ru : rule) (cm : list rule) :
  live_rules (ru :: cm)
  = if (0 <? ru.2)%Z then ru :: live_rules cm else live_rules cm.
Proof.
  unfold live_rules. rewrite filter_cons.
  destruct (0 <? ru.2)%Z; by case_decide.
Qed.

Lemma next_converted_live (cm : list rule) (n : Z) :
  Category.next_converted (live_rules cm) n = Category.next_converted cm n.
Proof.
  induction cm as [|[[d s] len] cm IH]; [reflexivity|].
  rewrite live_rules_cons. cbn [snd Category.next_converted].
  destruct (Z.ltb_spec 0 len).
  - cbn [Category.next_converted]. by rewrite IH.
  - rewrite IH.
    destruct (Z.leb_spec s n), (Z.ltb_spec n (s + len)); simpl; try reflexivity. lia.
Qed.

Lemma for_rules_live (cm : list rule) (start end_ : Z) :
  Category.for_rules (live_rules cm) start end_ = Category.for_rules cm start end_.
Proof.
  induction cm as [|[[d s] len] cm IH]; [reflexivity|].
  rewrite live_rules_cons. cbn [snd Category.for_rules].
  destruct (Z.ltb_spec 0 len).
  - cbn [Category.for_rules]. by rewrite IH.
  - rewrite IH.
    destruct (Z.ltb_spec (Z.max start s) (Z.min end_ (s + len))); [lia|reflexivity].
Qed.

Lemma loop_body_live (cm : list rule) (st : Category.loop_state) :
  Category.loop_body (live_rules cm) st = Category.loop_body cm st.
Proof.
  unfold Category.loop_body.
  destruct (pop (Category.seed_ranges_pair st)) as [[rest [start end_]]|]; [|reflexivity].
  by rewrite for_rules_live.
Qed.

Lemma iterations_live (cm : list rule) (n : nat) (st st' : Category.loop_state) :
  Category.iterations cm n st st' -> Category.iterations (live_rules cm) n st st'.
Proof.
  induction 1 as [st He|n st st' Hne _ IH]; [by constructor|].
  constructor; [exact Hne|]. by rewrite loop_body_live.
Qed.

(** X9. A rule whose length is zero or negative never applies: removing all
    such rules from a category changes neither what [convert_initial_seed]
    returns nor what [convert_seed_range] returns and leaves in the caller's
    list. *)
Theorem rules_without_length_are_ignored (id id' : string) (cm : list rule) :
  (forall n,
      Category.convert_initial_seed (Category.mk id' (live_rules cm)) n
      = Category.convert_initial_seed (Category.mk id cm) n) /\
  (forall l,
      Category.convert_seed_range (Category.mk id' (live_rules cm)) l
      = Category.convert_seed_range (Category.mk id cm) l).
Proof.
  split.
  - intros n. apply next_converted_live.
  - intros l.
    destruct (convert_seed_range_iterations (Category.mk id cm) l) as (n & Hn & _).
    destruct (convert_seed_range_iterations (Category.mk id' (live_rules cm)) l)
      as (n' & Hn' & _).
    apply iterations_live in Hn. simpl in Hn, Hn'.
    by destruct (iterations_deterministic _ _ _ _ _ _ Hn' Hn) as [_ ->].
Qed.

(** ** Where the returned ranges come from *)

Lemma sub_trans (r1 r2 r3 : range) : sub r1 r2 -> sub r2 r3 -> sub r1 r3.
Proof. unfold sub. lia. Qed.

Lemma loop_body_pieces (cm : list rule) (l : list range) (st : Category.loop_state) :
  Category.seed_ranges_pair st <> [] ->
  (forall w, w ∈ Category.seed_ranges_pair st -> exists r, r ∈ l /\ sub w r)
  /\ (forall o, o ∈ Category.converted_ranges st -> piece_of cm l o) ->
  (forall w, w ∈ Category.seed_ranges_pair (Category.loop_body cm st) ->
             exists r, r ∈ l /\ sub w r)
  /\ (forall o, o ∈ Category.converted_ranges (Category.loop_body cm st) ->
                piece_of cm l o).
Proof.
  destruct st as [w out]. simpl. intros Hne [Hw Hout].
  destruct (nonempty_snoc w Hne) as (rest & [start end_] & ->).
  destruct (Hw (start, end_)) as (r & Hr & Hsub);
    [apply elem_of_app; right; by apply list_elem_of_singleton|].
  assert (Hrest : forall w', w' ∈ rest -> exists r', r' ∈ l /\ sub w' r').
  { intros w' Hw'. apply Hw, elem_of_app. by left. }
  rewrite loop_body_pop.
  destruct (Category.for_rules cm start end_) as [[conv pushed]|] eqn:E; simpl.
  - apply for_rules_Some in E.
    destruct E as (pre & ru & post & Hcm & Hpre & Hru & Heq).
    assert (Hc : conv = (taken ru start end_).1) by (by rewrite <- Heq).
    assert (Hp : pushed = (taken ru start end_).2) by (by rewrite <- Heq).
    split.
    + intros w' Hw'. apply elem_of_app in Hw' as [Hw'|Hw']; [by apply Hrest|].
      rewrite Hp in Hw'.
      destruct (taken_shrinks pre ru start end_ w' Hpre Hru Hw') as [H _].
      exists r. split; [exact Hr|]. apply (sub_trans _ (start, end_)); [|exact Hsub].
      unfold sub. simpl. lia.
    + intros o Ho. apply elem_of_app in Ho as [Ho|Ho]; [by apply Hout|].
      apply list_elem_of_singleton in Ho. subst o conv.
      unfold overlaps in Hru.
      exists r, (Z.max start ru.1.2), (Z.min end_ (ru.1.2 + ru.2)).
      split; [exact Hr|]. split.
      { apply (sub_trans _ (start, end_)); [|exact Hsub]. unfold sub. simpl. lia. }
      right. split; [exact Hru|]. exists ru. split.
      { rewrite Hcm. apply elem_of_app. right. left. }
      split; [lia|]. split; [lia|reflexivity].
  - split; [exact Hrest|].
    intros o Ho. apply elem_of_app in Ho as [Ho|Ho]; [by apply Hout|].
    apply list_elem_of_singleton in Ho. subst o.
    exists r, start, end_. split; [exact Hr|]. split; [exact Hsub|].
    left. split; [reflexivity|]. by apply for_rules_None.
Qed.

(** X10. Every range [convert_seed_range] returns is one piece of one input
    range: either a part of an input range that no rule overlaps, returned
    as it is, or a non-empty part of an input range that lies inside the
    source interval of one rule, translated by that rule's offset. *)
Theorem returned_ranges_are_pieces (c : Category.t) (l : list range) (o : range) :
  o ∈ Category.converted_ranges (Category.convert_seed_range c l) ->
  piece_of (Category.category_map c) l o.
Proof.
  destruct (convert_seed_range_iterations c l) as (n & Hn & _).
  pose proof (iterations_invariant _
           (fun s => (forall w, w ∈ Category.seed_ranges_pair s ->
                                exists r, r ∈ l /\ sub w r)
                     /\ (forall o, o ∈ Category.converted_ranges s ->
                                   piece_of (Category.category_map c) l o)) _ _ _
           (loop_body_pieces _ l) Hn) as H.
  destruct H as [_ H].
  - split.
    + intros w Hw. exists w. split; [exact Hw|]. unfold sub. lia.
    + intros o' Ho'. by apply elem_of_nil in Ho'.
  - apply H.
Qed.

Lemma returned_ranges_are_pieces_witness :
  piece_of [(50, 5, 3)%Z] [(0, 10)%Z] (50, 53)%Z.
Proof.
  apply (returned_ranges_are_pieces (Category.mk "c" [(50, 5, 3)%Z]) [(0, 10)%Z]).
  left.
Defined.

(** ** From the seeds line to the lowest location *)

Lemma build_seed_ranges_even (seeds : list Z) :
  Nat.Even (length seeds) ->
  Gardener.build_seed_ranges seeds
  = inr (map (seed_pair_at seeds) (range_step2 (length seeds))).
Proof.
  intros [m Hm]. apply comprehension_ok. intros i Hi.
  apply range_step2_lookup in Hi as (k & -> & Hk).
  rewrite (py_index_Some _ _ _ (nth_lookup_Z seeds (2 * k) ltac:(lia))).
  rewrite (py_index_Some _ _ _ (nth_lookup_Z seeds (2 * k + 1) ltac:(lia))).
  reflexivity.
Qed.

Lemma elem_of_seed_pairs (seeds : list Z) (r : range) :
  Nat.Even (length seeds) ->
  r ∈ map (seed_pair_at seeds) (range_step2 (length seeds)) <->
  exists k a c, seeds !! (2 * k)%nat = Some a /\ seeds !! (2 * k + 1)%nat = Some c /\
                r = (a, (a + c)%Z).
Proof.
  intros [m Hm]. rewrite list_elem_of_In, in_map_iff. split.
  - intros (i & <- & Hi). apply list_elem_of_In, range_step2_lookup in Hi.
    destruct Hi as (k & -> & Hk).
    exists k, (nth (2 * k) seeds 0%Z), (nth (2 * k + 1) seeds 0%Z).
    split; [apply nth_lookup_Z; lia|]. split; [apply nth_lookup_Z; lia|reflexivity].
  - intros (k & a & c & Ha & Hc & ->).
    pose proof (lookup_lt_Some _ _ _ Hc) as Hlt.
    exists (2 * k)%nat. split.
    + unfold seed_pair_at.
      rewrite (nth_lookup_Some _ _ _ _ Ha), (nth_lookup_Some _ _ _ _ Hc). reflexivity.
    + apply list_elem_of_In, range_step2_lookup. exists k. split; [reflexivity|lia].
Qed.

(** X11. For a seeds line with an even, non-zero number of integers whose
    counts (the integers at odd positions) are all positive, the Gardener
    that [parse_almanac] builds answers with the lowest location of any seed
    of any "start count" pair: [find_lowest_location_from_seed_ranges]
    returns [convert_to_location_initial_seeds] of some [x] with
    [start <= x < start + count], and no such [x] is converted lower. *)
Theorem almanac_lowest_location (seeds : list Z) (blocks : list Category.t)
  (h : gmap nat (list range)) :
  Nat.Even (length seeds) ->
  seeds <> [] ->
  (forall k c, seeds !! (2 * k + 1)%nat = Some c -> (0 < c)%Z) ->
  exists g h' m,
    Gardener.parse_almanac seeds blocks h = (inr g, h') /\
    Gardener.categories g = blocks /\
    (Gardener.find_lowest_location_from_seed_ranges g h').1 = inr m /\
    (exists k a c x,
        seeds !! (2 * k)%nat = Some a /\ seeds !! (2 * k + 1)%nat = Some c /\
        (a <= x < a + c)%Z /\
        m = Gardener.convert_to_location_initial_seeds g x) /\
    (forall k a c x,
        seeds !! (2 * k)%nat = Some a -> seeds !! (2 * k + 1)%nat = Some c ->
        (a <= x < a + c)%Z ->
        (m <= Gardener.convert_to_location_initial_seeds g x)%Z).
Proof.
  intros Heven Hne Hpos.
  set (rs := map (seed_pair_at seeds) (range_step2 (length seeds))).
  set (r0 := fresh (dom h)).
  set (g := Gardener.mk seeds r0 blocks).
  set (h' := <[r0 := rs]> h).
  assert (Hparse : Gardener.parse_almanac seeds blocks h = (inr g, h')).
  { unfold Gardener.parse_almanac, alloc. by rewrite (build_seed_ranges_even seeds Heven). }
  assert (Hl : h' !! Gardener.seed_ranges g = Some rs) by apply lookup_insert_eq.
  assert (Hrs : rs <> []).
  { destruct seeds as [|a [|c seeds']]; [contradiction| |].
    - destruct Heven as [m Hm]. simpl in Hm. lia.
    - intros He.
      assert (Hin : (a, (a + c)%Z) ∈ rs).
      { apply elem_of_seed_pairs; [exact Heven|]. by exists 0%nat, a, c. }
      rewrite He in Hin. by apply elem_of_nil in Hin. }
  assert (Hall : Forall nonempty rs).
  { apply Forall_forall. intros r Hr.
    apply elem_of_seed_pairs in Hr as (k & a & c & Ha & Hc & ->); [|exact Heven].
    pose proof (Hpos k c Hc). unfold nonempty. simpl. lia. }
  destruct (lowest_range_location_spec g h' rs Hl Hrs Hall)
    as (m & Hm & (r & x & Hr & Hx & Hmx) & Hle).
  exists g, h', m. split; [exact Hparse|]. split; [reflexivity|].
  split; [exact Hm|]. split.
  - apply elem_of_seed_pairs in Hr as (k & a & c & Ha & Hc & ->); [|exact Heven].
    by exists k, a, c, x.
  - intros k a c x' Ha Hc Hx'. apply (Hle (a, (a + c)%Z)); [|exact Hx'].
    apply elem_of_seed_pairs; [exact Heven|]. by exists k, a, c.
Qed.

Lemma almanac_lowest_location_witness :
  exists g h' m,
    Gardener.parse_almanac [79; 14; 55; 13]%Z
      [Category.mk "seed_to_soil_map" [(50, 98, 2); (52, 50, 48)]%Z] ∅ = (inr g, h') /\
    (Gardener.find_lowest_location_from_seed_ranges g h').1 = inr m.
Proof.
  destruct (almanac_lowest_location [79; 14; 55; 13]%Z
              [Category.mk "seed_to_soil_map" [(50, 98, 2); (52, 50, 48)]%Z] ∅)
    as (g & h' & m & Hp & _ & Hm & _).
  - by exists 2%nat.
  - discriminate.
  - intros [|[|k]] c Hc.
    + injection Hc as <-. lia.
    + injection Hc as <-. lia.
    + rewrite lookup_ge_None_2 in Hc by (simpl; lia). discriminate.
  - by exists g, h', m.
Defined.

(** ** No range is dropped or merged *)

Lemma loop_body_count (cm : list rule) (st : Category.loop_state) :
  Category.seed_ranges_pair st <> [] ->
  (length (Category.seed_ranges_pair st) + length (Category.converted_ranges st)
   <= length (Category.seed_ranges_pair (Category.loop_body cm st))
      + length (Category.converted_ranges (Category.loop_body cm st)))%nat.
Proof.
  destruct st as [w out]. simpl. intros Hne.
  destruct (nonempty_snoc w Hne) as (rest & [start end_] & ->).
  rewrite loop_body_pop.
  destruct (Category.for_rules cm start end_) as [[conv pushed]|]; simpl;
    rewrite !length_app; simpl; lia.
Qed.

(** X12. [convert_seed_range] returns at least as many ranges as it is
    given: ranges are split but never dropped or merged, so the number of
    ranges does not go down along the pipeline of categories. *)
Theorem range_count_never_decreases (c : Category.t) (cats : list Category.t)
  (l : list range) :
  (length l <= length (Category.converted_ranges (Category.convert_seed_range c l)))%nat
  /\ (length l <= length (pipeline cats l))%nat.
Proof.
  assert (H1 : forall c' l',
    (length l' <= length (Category.converted_ranges (Category.convert_seed_range c' l')))%nat).
  { intros c' l'. destruct (convert_seed_range_iterations c' l') as (n & Hn & _).
    pose proof (iterations_exit_empty _ _ _ _ Hn) as He.
    pose proof (iterations_invariant _
      (fun s => (length l' <= length (Category.seed_ranges_pair s)
                              + length (Category.converted_ranges s))%nat) _ _ _
      (fun s Hs Hi => Nat.le_trans _ _ _ Hi (loop_body_count _ s Hs)) Hn) as H.
    cbv beta in H. rewrite He in H. simpl in H. apply H. lia. }
  split; [apply H1|].
  revert l. induction cats as [|c' cats IH]; intros l; [reflexivity|].
  etrans; [apply (H1 c' l)|apply IH].
Qed.
